(** * hpp-part2: the notebooks' own code, embedded and verified

    The notebooks are calls into Dask and scikit-learn around a handful of
    functions of their own.  This development embeds those functions:

    - [ML.threshold]        the price classifier of the ML notebook;
    - [MonteCarlo.sample]   one Monte Carlo draw, and the estimate of pi;
    - [Actors.borrow]       the [Bank] actor's method;
    - [Walks.run]           the random-walk loop over [as_completed];
    - [FirstResults]        the cell that takes results with [ac.next()];
    - [WalkerActor.walk]    the [Walker] actor's method;
    - [Peers.borrow]        the [Borrower] actor's method.

    Python floats are IEEE binary64 numbers, which is what Rocq's primitive
    floats are; Python ints are [Z]. *)

From Stdlib Require Import ZArith QArith Floats String.
From stdpp Require Import base option list relations.

(* ===================================================================== *)
(** ** Definitions *)
(* ===================================================================== *)

(** *** The price classifier (ML notebook) *)

Module ML.
Local Open Scope Z_scope.

(** [THRESHOLDS = (1200, 11000)] *)
Definition THRESHOLDS : Z * Z := (1200, 11000).

(** [def threshold(p)], on the integer prices of the diamonds table: two
    strict comparisons, tried in this order. *)
Definition threshold (p : Z) : Z :=
  if p <? fst THRESHOLDS then 0
  else if p >? snd THRESHOLDS then 2
  else 1.
End ML.

(** *** Monte Carlo estimate of pi *)

Module MonteCarlo.

(** [def sample()].  The two calls of [random.uniform(0, 1)] are the
    arguments [x] and [y]: the function is the code that follows the
    draws. *)
Definition sample (x y : float) : Z :=
  let d := (x * x + y * y)%float in
  if (d <? 1)%float then 1%Z else 0%Z.

(** [results]: one [sample()] per pair of draws. *)
Definition samples (draws : list (float * float)) : list Z :=
  map (fun d => sample (fst d) (snd d)) draws.

(** Python's [sum] over a list of ints. *)
Definition sum (results : list Z) : Z := foldr Z.add 0%Z results.

(** [4*sum(results)/len(results)].  Both operands of [/] are ints, and
    Python's true division of ints returns the float nearest to the exact
    quotient: the quotient itself is kept here, as a rational.  An empty
    list divides by zero ([None]). *)
Definition pi_hat (results : list Z) : option Q :=
  match results with
  | [] => None
  | _ :: _ => Some (Qmake (4 * sum results) (Pos.of_nat (length results)))
  end.
End MonteCarlo.

(** *** The bank actor *)

Module Actors.
Local Open Scope Z_scope.

(** [class Bank]: the instance attribute set by [__init__]. *)
Record Bank : Type := { funds : Z }.

(** [Bank.__init__(self, funds)] *)
Definition init (funds0 : Z) : Bank := {| funds := funds0 |}.

(** [Bank.borrow(self, amount)], as state passing: the loan returned and
    the bank afterwards.  The method has no [await] between reading and
    writing [self.funds], so a call is one atomic step of the actor. *)
Definition borrow (amount : Z) (self : Bank) : Z * Bank :=
  let loan := Z.min amount (funds self) in
  (loan, {| funds := funds self - loan |}).

(** A sequence of calls on one actor: the loans, in call order, and the
    bank at the end. *)
Fixpoint borrow_all (amounts : list Z) (self : Bank) : list Z * Bank :=
  match amounts with
  | [] => ([], self)
  | amount :: rest =>
      let '(loan, self') := borrow amount self in
      let '(loans, self'') := borrow_all rest self' in
      (loan :: loans, self'')
  end.
End Actors.

(** *** Random walks driven by [as_completed] *)

Module Walks.

(** A walker's position, the Python tuple [(id, x, y)].  The seeds are
    written [(i, 0, 0)] with int zeros; [step] adds a float to them, and
    an int zero added to a float is the float zero added to it. *)
Record pos : Type := Pos { id : Z; x : float; y : float }.

(** [def step(pos)].  The two calls of [random.uniform(-1, 1)] are the
    pair [d]. *)
Definition step (p : pos) (d : float * float) : pos :=
  {| id := id p; x := (x p + fst d)%float; y := (y p + snd d)%float |}.

(** [num_walks = 3] *)
Definition num_walks : nat := 3.

(** [max_distance_squared = 2*2] *)
Definition max_distance_squared : float := (2 * 2)%float.

(** The test of the loop body,
    [(r[1]**2 + r[2]**2) < max_distance_squared], with each square
    [v**2] taken as the float product [v * v].  Python computes [v**2]
    with the C library's [pow]: that is the product wherever the square
    is itself a float, as at every position of the walks evaluated
    below; elsewhere it can be a neighbour of the rounded product, and
    it raises [OverflowError] where the square is out of range.
    [within_by] below is the test with the power left to the library. *)
Definition within (r : pos) : bool :=
  (x r * x r + y r * y r <? max_distance_squared)%float.

(** The same test, [sq v] being what [v**2] gives on this platform: the
    float the C library returns, or [None] for [OverflowError], which
    leaves the test without a value. *)
Definition within_by (sq : float -> option float) (r : pos) : option bool :=
  match sq (x r), sq (y r) with
  | Some a, Some b => Some (a + b <? max_distance_squared)%float
  | _, _ => None
  end.

(** A power that is the rounded product and is never out of range: what
    [v**2] gives wherever the product is exact. *)
Definition product (v : float) : option float := Some (v * v)%float.

(** [[(i,0,0) for i in range(n)]] *)
Definition origins (n : nat) : list pos :=
  map (fun i => Pos (Z.of_nat i) 0%float 0%float) (seq 0 n).

(** What a future holds once it has completed: the value [step] returned,
    or the exception it raised on the worker. *)
Definition exn : Type := string.

Inductive outcome : Type :=
| Returned (r : pos)
| Raises (e : exn).

(** A future that [client.submit(step, arg)] returned and the loop has
    not consumed yet.  [task] and [nstep] are bookkeeping of the model:
    the position of the seed the chain started from, and the number of
    steps of that chain completed before this one. *)
Record future : Type := Future { task : nat; nstep : nat; arg : pos }.

(** What the loop does, in order.  [Submit] and [Result] are its calls to
    the pool, [Print] is [print(r)], and [Done] is the [else] branch,
    which prints the walk's id. *)
Inductive event : Type :=
| Submit (t n : nat) (a : pos)
| Result (t n : nat) (r : pos)
| Print (r : pos)
| Done (t : nat) (r : pos).

(** The lines the reader of the notebook's output sees. *)
Inductive line : Type :=
| ShowPos (r : pos)
| WalkDone (i : Z).

Definition printed (e : event) : option line :=
  match e with
  | Print r => Some (ShowPos r)
  | Done _ r => Some (WalkDone (id r))
  | Submit _ _ _ | Result _ _ _ => None
  end.

Definition stdout (tr : list event) : list line := omap printed tr.

Definition done_of (e : event) : option (nat * pos) :=
  match e with
  | Done t r => Some (t, r)
  | _ => None
  end.

(** The walks that have ended, with the position each ended at. *)
Definition dones (tr : list event) : list (nat * pos) := omap done_of tr.

Definition walk_done (l : line) : option Z :=
  match l with
  | WalkDone i => Some i
  | ShowPos _ => None
  end.

(** The ids of the "Walk ... is done" lines. *)
Definition done_ids (out : list line) : list Z := omap walk_done out.

Definition is_submit (t : nat) (e : event) : bool :=
  match e with
  | Submit t' _ _ => Nat.eqb t t'
  | _ => false
  end.

Definition is_result (t : nat) (e : event) : bool :=
  match e with
  | Result t' _ _ => Nat.eqb t t'
  | _ => false
  end.

Definition count (p : event -> bool) (tr : list event) : nat :=
  length (List.filter p tr).

(** Invocations of [step] requested for task [t], and results of task [t]
    the loop has taken from a future. *)
Definition submissions (t : nat) (tr : list event) : nat :=
  count (is_submit t) tr.

Definition observed (t : nat) (tr : list event) : nat :=
  count (is_result t) tr.

(** The loop's state: the futures inside [ac], and what it did so far. *)
Record state : Type := State { ac : list future; trace : list event }.

(** [client.submit(step, s) for s in seeds], numbering the tasks from
    [t]. *)
Fixpoint submit_all (t : nat) (seeds : list pos) : list future :=
  match seeds with
  | [] => []
  | s0 :: rest => Future t 0 s0 :: submit_all (S t) rest
  end.

Definition submitted (f : future) : event :=
  Submit (task f) (nstep f) (arg f).

(** [ac = as_completed([client.submit(step, s) for s in seeds])] *)
Definition start (seeds : list pos) : state :=
  let fs := submit_all 0 seeds in
  {| ac := fs; trace := map submitted fs |}.

(** The future [as_completed] hands out next is whichever completes
    first.  The choice is the pool's: it is the number [c], read as a
    position in the futures outstanding. *)
Definition pick (c : nat) (f0 : future) (fs : list future)
    : future * list future :=
  let i := c mod S (length fs) in
  (default f0 ((f0 :: fs) !! i), delete i (f0 :: fs)).

Inductive turn : Type :=
| Continue (s : state)
| Exhausted
| Failure (e : exn).

(** How a run of the loop ends: the [for] statement ran out of futures,
    an exception left it, or the choices given ran out first. *)
Inductive verdict : Type :=
| Finished (tr : list event)
| Raised (e : exn) (tr : list event)
| Waiting (s : state).

Section Loop.

(** The function submitted to the pool.  The source's [step] draws
    random numbers, so what an invocation returns depends on the
    invocation: on the task and on the number of the step in the task's
    chain, besides the argument. *)
Variable step_fn : nat -> nat -> pos -> outcome.

(** The test that decides between resubmitting and retiring. *)
Variable should_continue : pos -> bool.

(** The events of one turn on the future [f] whose result is [r]:
    [r = future.result()], [print(r)], and then either
    [ac.add(client.submit(step, r))] or the "done" line. *)
Definition resubmit (f : future) (r : pos) : list event :=
  [Result (task f) (nstep f) r; Print r; Submit (task f) (S (nstep f)) r].

Definition retire (f : future) (r : pos) : list event :=
  [Result (task f) (nstep f) r; Print r; Done (task f) r].

(** One turn of [for future in ac:].  [future.result()] returns the
    value or re-raises the worker's exception; nothing in the body
    catches it. *)
Definition iteration (c : nat) (s : state) : turn :=
  match ac s with
  | [] => Exhausted
  | f0 :: fs =>
      let '(f, rest) := pick c f0 fs in
      match step_fn (task f) (nstep f) (arg f) with
      | Raises e => Failure e
      | Returned r =>
          if should_continue r then
            Continue {| ac := rest ++ [Future (task f) (S (nstep f)) r];
                        trace := trace s ++ resubmit f r |}
          else
            Continue {| ac := rest; trace := trace s ++ retire f r |}
      end
  end.

(** The two shapes of a turn that goes on, as a relation. *)
Inductive turn_of (s : state) (f : future) (r : pos) : state -> Prop :=
| turn_resubmit i :
    ac s !! i = Some f ->
    should_continue r = true ->
    turn_of s f r
      {| ac := delete i (ac s) ++ [Future (task f) (S (nstep f)) r];
         trace := trace s ++ resubmit f r |}
| turn_retire i :
    ac s !! i = Some f ->
    should_continue r = false ->
    turn_of s f r
      {| ac := delete i (ac s); trace := trace s ++ retire f r |}.

(** The loop, under the completion order [sched]. *)
Fixpoint run (sched : list nat) (s : state) : verdict :=
  match sched with
  | [] =>
      match ac s with
      | [] => Finished (trace s)
      | _ :: _ => Waiting s
      end
  | c :: sched' =>
      match iteration c s with
      | Exhausted => Finished (trace s)
      | Failure e => Raised e (trace s)
      | Continue s' => run sched' s'
      end
  end.

(** One turn of the loop, and the states a run passes through. *)
Definition turns (s s' : state) : Prop :=
  exists c, iteration c s = Continue s'.

Definition reachable (seeds : list pos) (s : state) : Prop :=
  rtc turns (start seeds) s.

(** The result of the [j]-th further step of a chain whose step number
    [n] has argument [a], when the chain gets that far: every earlier
    result passed the test and no step raised. *)
Fixpoint result_at (t n : nat) (a : pos) (j : nat) : option pos :=
  match step_fn t n a with
  | Raises _ => None
  | Returned r =>
      match j with
      | 0 => Some r
      | S j' => if should_continue r then result_at t (S n) r j' else None
      end
  end.

(** The test holds of the first [k] results of the chain and fails on
    the next one, which is [r]. *)
Definition ends_at (t n : nat) (a : pos) (k : nat) (r : pos) : Prop :=
  result_at t n a k = Some r /\ should_continue r = false.

(** The exception of a chain that fails: its first [j] results pass the
    test and its next step raises. *)
Fixpoint failure_at (t n : nat) (a : pos) (j : nat) : option exn :=
  match step_fn t n a with
  | Raises e =>
      match j with
      | 0 => Some e
      | S _ => None
      end
  | Returned r =>
      match j with
      | 0 => None
      | S j' => if should_continue r then failure_at t (S n) r j' else None
      end
  end.

(** The chain comes to an end after [k] results that pass the test: by
    a result that fails it, or by a step that raises. *)
Definition settles (t n : nat) (a : pos) (k : nat) : Prop :=
  (exists r, ends_at t n a k r) \/ (exists e, failure_at t n a k = Some e).

Definition settles_with (f : future) (k : nat) : Prop :=
  settles (task f) (nstep f) (arg f) k.

(** What is left of the chain of an outstanding future: [w.1] results
    that pass the test, then the result [w.2], which fails it. *)
Definition ends_with (f : future) (w : nat * pos) : Prop :=
  ends_at (task f) (nstep f) (arg f) w.1 w.2.

(** The turns of the loop a list of such chains takes. *)
Definition work (ws : list (nat * pos)) : nat :=
  sum_list_with (fun w => S w.1) ws.

(** Where the chain of an outstanding future stands: its argument is
    the seed of its task, or the latest result of the chain, which
    passed the test. *)
Definition on_chain (seeds : list pos) (f : future) : Prop :=
  exists s0,
    seeds !! task f = Some s0 /\
    match nstep f with
    | 0 => arg f = s0
    | S n =>
        result_at (task f) 0 s0 n = Some (arg f) /\
        should_continue (arg f) = true
    end.

End Loop.

(** The source's loop: [step] with the draws of each invocation given by
    [draw], and the distance test. *)
Definition walk_step (draw : nat -> nat -> float * float)
    (t n : nat) (a : pos) : outcome :=
  Returned (step a (draw t n)).

Definition random_walks (draw : nat -> nat -> float * float)
    (sched : list nat) : verdict :=
  run (walk_step draw) within sched (start (origins num_walks)).

(** Draws for a walk that moves by one half along [x] at every step. *)
Definition steady (t n : nat) : float * float := (0.5, 0)%float.

(** The same walk on a pool where the second step of task 0 raises. *)
Definition faulty (t n : nat) (a : pos) : outcome :=
  match t, n with
  | 0, 1 => Raises "step failed"%string
  | _, _ => walk_step steady t n a
  end.

(** A test that never asks for another step. *)
Definition never (r : pos) : bool := false.

End Walks.

(** *** Taking the first results with [ac.next()] *)

Module FirstResults.
Import Walks.

(** How the cell ends: it ran through, [ac.next()] found no future left
    and raised [StopIteration], or [result()] re-raised a step's
    exception. *)
Inductive cell : Type :=
| Ran (s : state)
| StopIteration (tr : list event)
| Error (e : exn) (tr : list event).

(** [for i in range(n): print(ac.next().result())].  [pool i] is the
    pool's choice of the future that completes at the [i]-th call of
    [next()].  Nothing is resubmitted. *)
Fixpoint next_results (step_fn : nat -> nat -> pos -> outcome)
    (n : nat) (pool : nat -> nat) (s : state) : cell :=
  match n with
  | 0 => Ran s
  | S n' =>
      match ac s with
      | [] => StopIteration (trace s)
      | f0 :: fs =>
          let '(f, rest) := pick (pool 0) f0 fs in
          match step_fn (task f) (nstep f) (arg f) with
          | Raises e => Error e (trace s)
          | Returned r =>
              next_results step_fn n' (fun i => pool (S i))
                {| ac := rest;
                   trace := trace s ++ [Result (task f) (nstep f) r; Print r] |}
          end
      end
  end.

(** The positions printed. *)
Definition shown (l : line) : option pos :=
  match l with
  | ShowPos r => Some r
  | WalkDone _ => None
  end.

Definition positions (tr : list event) : list pos := omap shown (stdout tr).

End FirstResults.

(** *** The walker actor *)

Module WalkerActor.

(** [class Walker]: the instance attributes set by [__init__].  A new
    walker holds int zeros, whose squares and sums are those of the
    float zero. *)
Record Walker : Type := { id : Z; x : float; y : float }.

(** [distance_limit = max_distance_squared], a class attribute. *)
Definition distance_limit : float := Walks.max_distance_squared.

(** [Walker.__init__(self, id)] *)
Definition init (id0 : Z) : Walker := {| id := id0; x := 0; y := 0 |}.

(** The two assignments of the loop body, [d] being the two draws of
    [random.uniform(-1,1)]. *)
Definition moved (self : Walker) (d : float * float) : Walker :=
  {| id := id self;
     x := (x self + fst d)%float;
     y := (y self + snd d)%float |}.

(** The walker after [m] turns of the loop body; the draws of the turn
    that starts with the counter at [k] are [draw k]. *)
Fixpoint after (m : nat) (draw : nat -> float * float) (self : Walker)
    : Walker :=
  match m with
  | 0 => self
  | S m' => moved (after m' draw self) (draw m')
  end.

(** What a call of [walk] comes to: [return steps], or the
    [OverflowError] of a square in the test of the [while] statement.
    Either way the walker stays as the call left it. *)
Inductive walked : Type :=
| Steps (steps : nat) (self : Walker)
| OverflowError (self : Walker).

Section Power.

(** [v**2] is computed by the C library's [pow], which is not part of
    the notebooks: [sq v] is the float it returns, or [None] when Python
    raises [OverflowError] for a result out of range. *)
Variable sq : float -> option float.

(** The test of the [while] statement,
    [(self.x**2 + self.y**2) < Walker.distance_limit]. *)
Definition inside (self : Walker) : option bool :=
  match sq (x self), sq (y self) with
  | Some a, Some b => Some (a + b <? distance_limit)%float
  | _, _ => None
  end.

(** The [while] loop of [walk], [steps] being its counter.  The loop
    has no bound of its own: [None] is a loop still running when [fuel]
    turns have passed. *)
Fixpoint walk_loop (fuel : nat) (draw : nat -> float * float)
    (steps : nat) (self : Walker) : option walked :=
  match inside self with
  | None => Some (OverflowError self)
  | Some false => Some (Steps steps self)
  | Some true =>
      match fuel with
      | 0 => None
      | S fuel' => walk_loop fuel' draw (S steps) (moved self (draw steps))
      end
  end.

(** [Walker.walk(self)] *)
Definition walk (fuel : nat) (draw : nat -> float * float) (self : Walker)
    : option walked :=
  walk_loop fuel draw 0 self.

(** How the loop stops at the walker [self] with the counter at [n]. *)
Definition stops (n : nat) (self : Walker) (w : walked) : Prop :=
  inside self = Some false /\ w = Steps n self \/
  inside self = None /\ w = OverflowError self.

End Power.

End WalkerActor.

(** *** The borrower actor and its banks *)

Module Peers.
Import Actors.
Local Open Scope Z_scope.

(** [class Borrower]: the instance attributes set by [__init__].  A
    reference to an actor is its position in the list of banks that
    exist; any other object has no [borrow] attribute. *)
Record Borrower : Type := { bank : option nat; debt : Z }.

(** [Borrower.__init__(self)] *)
Definition init : Borrower := {| bank := None; debt := 0 |}.

(** [Borrower.assign_bank(self, bank)] *)
Definition assign_bank (b : nat) (self : Borrower) : bool * Borrower :=
  (true, {| bank := Some b; debt := debt self |}).

(** The borrower and the banks it can reach: the banks are shared
    objects, updated in place. *)
Record world : Type := { borrower : Borrower; banks : list Bank }.

(** What a call returns or raises. *)
Inductive reply : Type :=
| Assigned
| Loan (loan : Z)
| AttributeError.

(** [Borrower.borrow(self, amount)]:
    [loan = await self.bank.borrow(amount); self.debt += loan]. *)
Definition borrow (amount : Z) (w : world) : reply * world :=
  match bank (borrower w) with
  | None => (AttributeError, w)
  | Some i =>
      match banks w !! i with
      | None => (AttributeError, w)
      | Some b =>
          let '(loan, b') := Actors.borrow amount b in
          (Loan loan,
           {| borrower := {| bank := Some i;
                             debt := debt (borrower w) + loan |};
              banks := <[i := b']> (banks w) |})
      end
  end.

(** The calls the notebook makes on a borrower, one after the other. *)
Inductive call : Type :=
| AssignBank (b : nat)
| Borrow (amount : Z).

Definition perform (c : call) (w : world) : reply * world :=
  match c with
  | AssignBank b =>
      (Assigned,
       {| borrower := (assign_bank b (borrower w)).2; banks := banks w |})
  | Borrow amount => borrow amount w
  end.

Fixpoint perform_all (cs : list call) (w : world) : list reply * world :=
  match cs with
  | [] => ([], w)
  | c :: rest =>
      let '(r, w') := perform c w in
      let '(rs, w'') := perform_all rest w' in
      (r :: rs, w'')
  end.

(** The money in the banks, and the money lent according to the
    replies. *)
Definition total_funds (bs : list Bank) : Z :=
  foldr (fun b acc => funds b + acc) 0 bs.

Definition lent (rs : list reply) : Z :=
  foldr (fun r acc => match r with Loan l => l + acc | _ => acc end) 0 rs.

Definition amount_of (c : call) : Z :=
  match c with
  | Borrow amount => amount
  | AssignBank _ => 0
  end.

End Peers.

(* ===================================================================== *)
(** ** Properties *)
(* ===================================================================== *)

(** *** The price classifier *)

Section Threshold.
Import ML.
Local Open Scope Z_scope.

(** C10.  [threshold] is defined on every price and returns 0, 1 or 2:
    0 exactly below 1200, 2 exactly above 11000, and 1 on the closed range
    between them.  Both comparisons are strict, so the prices 1200 and
    11000 themselves are classified 1. *)
Theorem threshold_classes (p : Z) :
  (threshold p = 0 \/ threshold p = 1 \/ threshold p = 2) /\
  (threshold p = 0 <-> p < 1200) /\
  (threshold p = 2 <-> p > 11000) /\
  (threshold p = 1 <-> 1200 <= p <= 11000) /\
  threshold 1200 = 1 /\ threshold 11000 = 1.
Proof.
  unfold threshold, THRESHOLDS; cbn [fst snd].
  destruct (Z.ltb_spec p 1200) as [Hlo | Hlo].
  - repeat split; auto; try lia.
  - rewrite Z.gtb_ltb.
    destruct (Z.ltb_spec 11000 p) as [Hhi | Hhi]; repeat split; auto; lia.
Qed.
End Threshold.

(** *** The bank actor *)

Section Bank.
Import Actors.
Local Open Scope Z_scope.

Lemma borrow_all_app (pre post : list Z) (b : Bank) :
  borrow_all (pre ++ post) b =
  ((borrow_all pre b).1 ++ (borrow_all post (borrow_all pre b).2).1,
   (borrow_all post (borrow_all pre b).2).2).
Proof.
  revert b; induction pre as [| a pre IH]; intros b; simpl.
  - by destruct (borrow_all post b).
  - rewrite IH.
    by destruct (borrow_all pre _), (borrow_all post _).
Qed.

Lemma borrow_all_length (amounts : list Z) (b : Bank) :
  length (borrow_all amounts b).1 = length amounts.
Proof.
  revert b; induction amounts as [| a amounts IH]; intros b; simpl; [done |].
  specialize (IH {| funds := funds b - Z.min a (funds b) |}).
  destruct (borrow_all amounts _); simpl in *; lia.
Qed.

Lemma borrow_all_solvent (amounts : list Z) (b : Bank) :
  0 <= funds b -> 0 <= funds (borrow_all amounts b).2.
Proof.
  revert b; induction amounts as [| a amounts IH]; intros b Hb; simpl; [done |].
  specialize (IH {| funds := funds b - Z.min a (funds b) |}).
  destruct (borrow_all amounts _); simpl in *; apply IH; lia.
Qed.

(** C8.  A bank created with non-negative funds serves any sequence of
    non-negative requests.  At each call, [before] being the bank left by
    the calls that precede it: the loan is [min amount funds], the funds
    drop by exactly the loan, the loan is what the sequence returns at
    that position, and the funds are non-negative before and after. *)
Theorem bank_never_overdrawn (funds0 : Z) (pre : list Z) (amount : Z)
    (post : list Z) :
  0 <= funds0 ->
  Forall (fun a => 0 <= a) (pre ++ amount :: post) ->
  let before := (borrow_all pre (init funds0)).2 in
  let loan := (borrow amount before).1 in
  let after := (borrow amount before).2 in
  loan = Z.min amount (funds before) /\
  funds after = funds before - loan /\
  (borrow_all (pre ++ amount :: post) (init funds0)).1 !! length pre
    = Some loan /\
  after = (borrow_all (pre ++ [amount]) (init funds0)).2 /\
  0 <= loan /\ 0 <= funds before /\ 0 <= funds after.
Proof.
  intros Hfunds Hamounts before loan after.
  assert (Hbefore : 0 <= funds before)
    by (apply borrow_all_solvent; simpl; lia).
  assert (Hamount : 0 <= amount).
  { apply Forall_app in Hamounts as [_ Hrest].
    by apply Forall_cons in Hrest as [? _]. }
  subst loan after; unfold borrow; cbn [fst snd funds].
  repeat split; try lia.
  - rewrite borrow_all_app; cbn [fst].
    rewrite lookup_app_r by (rewrite borrow_all_length; lia).
    rewrite borrow_all_length, Nat.sub_diag; fold before.
    simpl. by destruct (borrow_all post _).
  - rewrite borrow_all_app; cbn [snd]; fold before. done.
Qed.

Lemma bank_never_overdrawn_witness :
  let before := (borrow_all [300; 500] (init 1000)).2 in
  funds before = 200 /\
  (borrow 700 before).1 = 200 /\
  funds (borrow 700 before).2 = 0.
Proof.
  pose proof (bank_never_overdrawn 1000 [300; 500] 700 [50]) as H.
  cbv zeta in H.
  destruct H as (Hloan & Hafter & _).
  - lia.
  - repeat constructor; lia.
  - cbv zeta. rewrite Hafter, Hloan. vm_compute. done.
Defined.
End Bank.

(** *** Monte Carlo estimate of pi *)

Section MonteCarlo.
Import MonteCarlo.

Lemma sample_bit (x y : float) : sample x y = 0%Z \/ sample x y = 1%Z.
Proof. unfold sample. destruct (_ <? _)%float; auto. Qed.

Lemma sum_samples_bounds (draws : list (float * float)) :
  (0 <= sum (samples draws) <= Z.of_nat (length draws))%Z.
Proof.
  induction draws as [| d draws IH]; simpl; [lia |].
  destruct (sample_bit d.1 d.2) as [-> | ->]; lia.
Qed.

(** C9.  [sample] returns 0 or 1, and 1 exactly when the point drawn has
    [x*x + y*y < 1]; hence the estimate [4*sum/n] over any [n >= 1]
    samples lies between 0 and 4, both included. *)
Theorem sample_estimate_bounds (x y : float)
    (draws : list (float * float)) :
  draws <> [] ->
  (sample x y = 0%Z \/ sample x y = 1%Z) /\
  (sample x y = 1%Z <-> (x * x + y * y <? 1)%float = true) /\
  exists q : Q,
    pi_hat (samples draws) = Some q /\ (0 <= q)%Q /\ (q <= 4)%Q.
Proof.
  intros Hne. split; [apply sample_bit |]. split.
  - unfold sample. destruct (_ <? _)%float; split; intros; congruence.
  - destruct draws as [| d draws]; [done |].
    pose proof (sum_samples_bounds (d :: draws)) as Hsum.
    unfold pi_hat. cbn [samples map].
    change (sample d.1 d.2 :: map _ draws) with (samples (d :: draws)).
    eexists; split; [reflexivity |].
    assert (Hlen : length (samples (d :: draws)) = length (d :: draws))
      by (unfold samples; apply length_map).
    rewrite Hlen.
    unfold Qle; cbn [Qnum Qden].
    cbn [length] in *. lia.
Qed.

Lemma sample_estimate_bounds_witness :
  exists q : Q,
    pi_hat (samples [(0.5, 0.5); (0.75, 0.75); (0.25, 0.125)]%float) = Some q /\
    (0 <= q)%Q /\ (q <= 4)%Q.
Proof.
  apply (sample_estimate_bounds 0.5%float 0.5%float
           [(0.5, 0.5); (0.75, 0.75); (0.25, 0.125)]%float).
  discriminate.
Defined.
End MonteCarlo.

(** *** The loop over [as_completed] *)

Section Loop.
Import Walks.

Variable step_fn : nat -> nat -> pos -> outcome.
Variable should_continue : pos -> bool.

Local Abbreviation iteration := (Walks.iteration step_fn should_continue).
Local Abbreviation run := (Walks.run step_fn should_continue).
Local Abbreviation turns := (Walks.turns step_fn should_continue).
Local Abbreviation reachable := (Walks.reachable step_fn should_continue).
Local Abbreviation result_at := (Walks.result_at step_fn should_continue).
Local Abbreviation ends_at := (Walks.ends_at step_fn should_continue).
Local Abbreviation turn_of := (Walks.turn_of should_continue).
Local Abbreviation on_chain := (Walks.on_chain step_fn should_continue).
Local Abbreviation ends_with := (Walks.ends_with step_fn should_continue).
Local Abbreviation failure_at := (Walks.failure_at step_fn should_continue).
Local Abbreviation settles := (Walks.settles step_fn should_continue).
Local Abbreviation settles_with :=
  (Walks.settles_with step_fn should_continue).

(** **** One turn, case by case *)

Lemma pick_lookup (c : nat) (f0 : future) (fs : list future) :
  exists i,
    (f0 :: fs) !! i = Some (pick c f0 fs).1 /\
    (pick c f0 fs).2 = delete i (f0 :: fs).
Proof.
  unfold pick; cbn [fst snd].
  set (i := c mod S (length fs)).
  assert (Hi : i < length (f0 :: fs))
    by (apply Nat.mod_upper_bound; discriminate).
  exists i.
  destruct (lookup_lt_is_Some_2 _ _ Hi) as [f Hf].
  rewrite Hf. done.
Qed.

Lemma iteration_Continue (c : nat) (s s' : state) :
  iteration c s = Continue s' ->
  exists f r,
    step_fn (task f) (nstep f) (arg f) = Returned r /\ turn_of s f r s'.
Proof.
  unfold Walks.iteration.
  destruct (ac s) as [| f0 fs] eqn:Hac; [done |].
  destruct (pick_lookup c f0 fs) as (i & Hf & Hrest).
  destruct (pick c f0 fs) as [f rest]; cbn [fst snd] in *; subst rest.
  destruct (step_fn _ _ _) as [r | e] eqn:Hstep; [| done].
  rewrite <- Hac in *.
  destruct (should_continue r) eqn:Hgo; intros [= <-];
    exists f, r; (split; [done |]).
  - by apply (turn_resubmit _ s f r i).
  - by apply (turn_retire _ s f r i).
Qed.

Lemma iteration_Failure (c : nat) (s : state) (e : exn) :
  iteration c s = Failure e ->
  exists f, f ∈ ac s /\ step_fn (task f) (nstep f) (arg f) = Raises e.
Proof.
  unfold Walks.iteration.
  destruct (ac s) as [| f0 fs] eqn:Hac; [done |].
  destruct (pick_lookup c f0 fs) as (i & Hf & _).
  destruct (pick c f0 fs) as [f rest]; cbn [fst snd] in *.
  destruct (step_fn _ _ _) as [r | e'] eqn:Hstep.
  - by destruct (should_continue r).
  - intros [= ->]. exists f. split; [| done].
    by apply list_elem_of_lookup_2 in Hf.
Qed.

Lemma iteration_Exhausted (c : nat) (s : state) :
  iteration c s = Exhausted <-> ac s = [].
Proof.
  unfold Walks.iteration. split.
  - destruct (ac s) as [| f0 fs]; [done |].
    destruct (pick c f0 fs) as [f rest].
    destruct (step_fn _ _ _) as [r | e]; [| done].
    by destruct (should_continue r).
  - by intros ->.
Qed.

(** Induction over the states of a run: the start, then turn by turn. *)
Lemma reachable_ind' (seeds : list pos) (P : state -> Prop) :
  P (start seeds) ->
  (forall s f r s',
      reachable seeds s -> P s ->
      step_fn (task f) (nstep f) (arg f) = Returned r ->
      turn_of s f r s' -> P s') ->
  forall s, reachable seeds s -> P s.
Proof.
  intros Hstart Hturn. unfold Walks.reachable.
  apply rtc_ind_r; [done |].
  intros s s' Hs [c Hc] IH.
  apply iteration_Continue in Hc as (f & r & Hstep & Hshape).
  by eapply Hturn.
Qed.

(** **** Reading traces *)

Lemma dones_app (tr1 tr2 : list event) :
  dones (tr1 ++ tr2) = dones tr1 ++ dones tr2.
Proof. apply omap_app. Qed.

Lemma count_app (p : event -> bool) (tr1 tr2 : list event) :
  count p (tr1 ++ tr2) = count p tr1 + count p tr2.
Proof. unfold count. by rewrite List.filter_app, length_app. Qed.

Lemma dones_submitted (fs : list future) : dones (map submitted fs) = [].
Proof. by induction fs. Qed.

Lemma task_submit_all (t : nat) (seeds : list pos) :
  map task (submit_all t seeds) = seq t (length seeds).
Proof.
  revert t; induction seeds as [| s0 seeds IH]; intros t; simpl; [done |].
  by rewrite IH.
Qed.

Lemma lookup_submit_all (t i : nat) (seeds : list pos) (f : future) :
  submit_all t seeds !! i = Some f ->
  exists s0, seeds !! i = Some s0 /\ f = Future (t + i) 0 s0.
Proof.
  revert t i; induction seeds as [| s0 seeds IH]; intros t i; [done |].
  destruct i as [| i]; simpl.
  - intros [= <-]. exists s0. by rewrite Nat.add_0_r.
  - intros Hf. apply IH in Hf as (s1 & Hs1 & ->).
    exists s1. split; [done |]. f_equal; lia.
Qed.

(** **** Every task is outstanding once, or done once *)

Lemma tasks_partition (seeds : list pos) (s : state) :
  reachable seeds s ->
  map fst (dones (trace s)) ++ map task (ac s) ≡ₚ seq 0 (length seeds).
Proof.
  revert s; apply reachable_ind'.
  - simpl. by rewrite dones_submitted, task_submit_all.
  - intros s f r s' _ IH _ Hturn. rewrite <- IH.
    destruct Hturn as [i Hi _ | i Hi _]; cbn [ac trace];
      rewrite dones_app;
      pose proof (delete_Permutation (ac s) i f Hi) as Hperm;
      revert Hperm; generalize (delete i (ac s)); intros rest ->;
      simpl; rewrite ?map_app; simpl.
    + rewrite app_nil_r. by rewrite (Permutation_app_comm _ [task f]).
    + by rewrite <- app_assoc.
Qed.

Lemma outstanding_once (seeds : list pos) (s : state) :
  reachable seeds s -> NoDup (map task (ac s)).
Proof.
  intros Hs. apply tasks_partition in Hs.
  assert (Hnd : NoDup (map fst (dones (trace s)) ++ map task (ac s)))
    by (rewrite Hs; apply NoDup_seq).
  by apply NoDup_app in Hnd as (_ & _ & ?).
Qed.

Lemma outstanding_not_done (seeds : list pos) (s : state) (f : future) :
  reachable seeds s -> f ∈ ac s ->
  task f ∉ map fst (dones (trace s)).
Proof.
  intros Hs Hf Hdone. apply tasks_partition in Hs.
  assert (Hnd : NoDup (map fst (dones (trace s)) ++ map task (ac s)))
    by (rewrite Hs; apply NoDup_seq).
  apply NoDup_app in Hnd as (_ & Hdisj & _).
  apply (Hdisj _ Hdone). by apply list_elem_of_fmap_2.
Qed.

(** **** Where a chain stands *)

Lemma result_at_snoc (t m n : nat) (a r r' : pos) :
  result_at t m a n = Some r ->
  should_continue r = true ->
  step_fn t (m + S n) r = Returned r' ->
  result_at t m a (S n) = Some r'.
Proof.
  revert m a; induction n as [| n IH]; intros m a; simpl.
  - destruct (step_fn t m a) as [r1 | e] eqn:H1; [| done].
    intros [= ->] -> Hnext.
    replace (m + 1) with (S m) in Hnext by lia. by rewrite Hnext.
  - destruct (step_fn t m a) as [r1 | e] eqn:H1; [| done].
    destruct (should_continue r1) eqn:Hgo; [| done].
    intros Hr Hr' Hnext.
    apply (IH (S m) r1 Hr Hr').
    by replace (S m + S n) with (m + S (S n)) by lia.
Qed.

Lemma on_chain_next (seeds : list pos) (f : future) (r : pos) :
  on_chain seeds f ->
  step_fn (task f) (nstep f) (arg f) = Returned r ->
  exists s0,
    seeds !! task f = Some s0 /\
    result_at (task f) 0 s0 (nstep f) = Some r.
Proof.
  intros (s0 & Hs0 & Hat) Hstep. exists s0. split; [done |].
  destruct (nstep f) as [| n] eqn:Hn.
  - subst s0. simpl. by rewrite Hstep.
  - destruct Hat as [Hat Hgo]. by apply (result_at_snoc _ 0 n s0 (arg f)).
Qed.

Lemma outstanding_on_chain (seeds : list pos) (s : state) :
  reachable seeds s -> forall f, f ∈ ac s -> on_chain seeds f.
Proof.
  revert s.
  apply (reachable_ind' seeds (fun s => forall f, f ∈ ac s -> on_chain seeds f)).
  - intros f Hf. apply list_elem_of_lookup_1 in Hf as [i Hi].
    apply lookup_submit_all in Hi as (s0 & Hs0 & ->).
    by exists s0.
  - intros s f r s' _ IH Hstep Hturn g Hg.
    destruct Hturn as [i Hi Hgo | i Hi Hgo]; cbn [ac] in Hg.
    + apply elem_of_app in Hg as [Hg | Hg].
      * by apply IH, (list_elem_of_delete_inv _ i).
      * apply list_elem_of_singleton in Hg as ->.
        assert (Hf : on_chain seeds f)
          by by apply IH, (list_elem_of_lookup_2 _ i).
        destruct (on_chain_next seeds f r Hf Hstep) as (s0 & Hs0 & Hr).
        by exists s0.
    + by apply IH, (list_elem_of_delete_inv _ i).
Qed.

(** **** Counting the steps of a task *)

Lemma lookup_start (t i : nat) (seeds : list pos) (e : event) :
  map submitted (submit_all t seeds) !! i = Some e ->
  exists s0, seeds !! i = Some s0 /\ e = Submit (t + i) 0 s0.
Proof.
  revert t i; induction seeds as [| s0 seeds IH]; intros t i; [done |].
  destruct i as [| i]; simpl.
  - intros [= <-]. exists s0. by rewrite Nat.add_0_r.
  - intros He. apply IH in He as (s1 & Hs1 & ->).
    exists s1. split; [done |]. f_equal; lia.
Qed.

Lemma observed_start (t : nat) (fs : list future) :
  observed t (map submitted fs) = 0.
Proof. by induction fs. Qed.

Lemma submissions_start_lt (t t0 : nat) (seeds : list pos) :
  t < t0 -> submissions t (map submitted (submit_all t0 seeds)) = 0.
Proof.
  revert t0; induction seeds as [| s0 seeds IH]; intros t0 Hlt; [done |].
  unfold submissions, count in *; simpl.
  destruct (Nat.eqb_spec t t0); [lia |]. apply IH; lia.
Qed.

Lemma submissions_start (t t0 : nat) (seeds : list pos) :
  t0 <= t < t0 + length seeds ->
  submissions t (map submitted (submit_all t0 seeds)) = 1.
Proof.
  revert t0; induction seeds as [| s0 seeds IH]; intros t0 Hin;
    simpl in Hin; [lia |].
  unfold submissions, count in *; simpl.
  destruct (Nat.eqb_spec t t0) as [-> | Hne]; simpl.
  - f_equal. apply (submissions_start_lt t0 (S t0)); lia.
  - apply IH; lia.
Qed.

Lemma observed_resubmit (t : nat) (f : future) (r : pos) :
  observed t (resubmit f r) = if decide (t = task f) then 1 else 0.
Proof.
  unfold observed, count; simpl.
  destruct (Nat.eqb_spec t (task f)); by case_decide.
Qed.

Lemma observed_retire (t : nat) (f : future) (r : pos) :
  observed t (retire f r) = if decide (t = task f) then 1 else 0.
Proof.
  unfold observed, count; simpl.
  destruct (Nat.eqb_spec t (task f)); by case_decide.
Qed.

Lemma submissions_resubmit (t : nat) (f : future) (r : pos) :
  submissions t (resubmit f r) = if decide (t = task f) then 1 else 0.
Proof.
  unfold submissions, count; simpl.
  destruct (Nat.eqb_spec t (task f)); by case_decide.
Qed.

Lemma submissions_retire (t : nat) (f : future) (r : pos) :
  submissions t (retire f r) = 0.
Proof. done. Qed.

(** A future left in [ac] when [f] is taken out belongs to another
    task. *)
Lemma other_task (seeds : list pos) (s : state) (i : nat) (f g : future) :
  reachable seeds s -> ac s !! i = Some f -> g ∈ delete i (ac s) ->
  task g <> task f.
Proof.
  intros Hs Hi Hg Heq. apply outstanding_once in Hs.
  rewrite (delete_Permutation (ac s) i f Hi) in Hs.
  simpl in Hs. apply NoDup_cons in Hs as [Hnotin _].
  apply Hnotin. rewrite <- Heq. by apply list_elem_of_fmap_2.
Qed.

Lemma outstanding_counts (seeds : list pos) (s : state) :
  reachable seeds s ->
  forall f, f ∈ ac s ->
    observed (task f) (trace s) = nstep f /\
    submissions (task f) (trace s) = S (nstep f).
Proof.
  revert s.
  apply (reachable_ind' seeds (fun s => forall f, f ∈ ac s ->
           observed (task f) (trace s) = nstep f /\
           submissions (task f) (trace s) = S (nstep f))).
  - intros f Hf. apply list_elem_of_lookup_1 in Hf as [i Hi].
    pose proof (lookup_lt_Some _ _ _ Hi) as Hlt.
    apply lookup_submit_all in Hi as (s0 & Hs0 & ->).
    apply lookup_lt_Some in Hs0.
    cbn [start trace task nstep]. split.
    + apply observed_start.
    + apply submissions_start; lia.
  - intros s f r s' Hs IH Hstep Hturn g Hg.
    assert (Hf : f ∈ ac s) by (destruct Hturn; by eapply list_elem_of_lookup_2).
    destruct (IH f Hf) as [Hobs Hsub].
    destruct Hturn as [i Hi Hgo | i Hi Hgo]; cbn [ac trace] in *;
      unfold observed, submissions in *; rewrite !count_app;
      fold (observed (task g) (resubmit f r));
      fold (submissions (task g) (resubmit f r));
      fold (observed (task g) (retire f r));
      fold (submissions (task g) (retire f r));
      rewrite ?observed_resubmit, ?submissions_resubmit,
        ?observed_retire, ?submissions_retire.
    + apply elem_of_app in Hg as [Hg | Hg].
      * pose proof (other_task seeds s i f g Hs Hi Hg).
        case_decide; [done |].
        destruct (IH g) as [-> ->]; [by eapply list_elem_of_delete_inv |].
        lia.
      * apply list_elem_of_singleton in Hg as ->. cbn [task nstep].
        case_decide; [| done]. lia.
    + pose proof (other_task seeds s i f g Hs Hi Hg).
      case_decide; [done |].
      destruct (IH g) as [-> ->]; [by eapply list_elem_of_delete_inv |].
      lia.
Qed.

(** **** When a walk is done *)

Lemma done_in_dones (tr : list event) (i t : nat) (r : pos) :
  tr !! i = Some (Done t r) -> t ∈ map fst (dones tr).
Proof.
  intros Hi. apply (list_elem_of_fmap_2' fst _ (t, r)); [| done].
  apply list_elem_of_omap. exists (Done t r).
  split; [by eapply list_elem_of_lookup_2 | done].
Qed.

Lemma done_after (seeds : list pos) (s : state) :
  reachable seeds s ->
  forall i t r,
    trace s !! i = Some (Done t r) ->
    exists s0 n,
      seeds !! t = Some s0 /\ ends_at t 0 s0 n r /\
      (observed t (take i (trace s)) = S n /\
       submissions t (take i (trace s)) = S n) /\
      (observed t (trace s) = S n /\ submissions t (trace s) = S n).
Proof.
  revert s.
  apply (reachable_ind' seeds (fun s => forall i t r,
           trace s !! i = Some (Done t r) ->
           exists s0 n,
             seeds !! t = Some s0 /\ ends_at t 0 s0 n r /\
             (observed t (take i (trace s)) = S n /\
              submissions t (take i (trace s)) = S n) /\
             (observed t (trace s) = S n /\
              submissions t (trace s) = S n))).
  - intros i t r Hi. by apply lookup_start in Hi as (s0 & _ & ?).
  - intros s f r s' Hs IH Hstep Hturn i t r' Hi.
    assert (Hf : f ∈ ac s)
      by (destruct Hturn; by eapply list_elem_of_lookup_2).
    assert (Hrest : exists ext,
               trace s' = trace s ++ ext /\
               (ext = resubmit f r \/
                ext = retire f r /\ should_continue r = false))
      by (destruct Hturn; eexists; eauto).
    destruct Hrest as (ext & Htr & Hext). rewrite Htr in *. clear Htr.
    apply lookup_app_Some in Hi as [Hi | [Hge Hi]].
    + destruct (IH i t r' Hi) as (s0 & n & Hs0 & Hend & Hthen & Hobs & Hsub).
      exists s0, n. split; [done |]. split; [done |].
      rewrite take_app_le by (apply lookup_lt_Some in Hi; lia).
      split; [done |].
      assert (Hne : t <> task f).
      { intros ->. apply (outstanding_not_done seeds s f Hs Hf).
        by eapply done_in_dones. }
      unfold observed, submissions in *. rewrite !count_app, Hobs, Hsub.
      fold (observed t ext). fold (submissions t ext).
      destruct Hext as [-> | [-> _]];
        rewrite ?observed_resubmit, ?submissions_resubmit,
          ?observed_retire, ?submissions_retire;
        repeat case_decide; done.
    + destruct Hext as [-> | [-> Hstop]].
      { destruct (i - length (trace s)) as [| [| [| j]]]; done. }
      destruct (i - length (trace s)) as [| [| [| j]]] eqn:Hj; try done.
      injection Hi as <- <-.
      destruct (on_chain_next seeds f r) as (s0 & Hs0 & Hr);
        [by eapply outstanding_on_chain | done |].
      destruct (outstanding_counts seeds s Hs f Hf) as [Hobs Hsub].
      exists s0, (nstep f). split; [done |]. split; [done |].
      rewrite take_app, take_ge, Hj by lia.
      unfold observed, submissions in *. rewrite !count_app, Hobs, Hsub.
      unfold count; simpl. rewrite Nat.eqb_refl. simpl. lia.
Qed.

(** **** The order inside a chain *)

Lemma submit_after_result (seeds : list pos) (s : state) :
  reachable seeds s ->
  forall j t n a,
    trace s !! j = Some (Submit t (S n) a) ->
    should_continue a = true /\
    exists i, i < j /\ trace s !! i = Some (Result t n a).
Proof.
  revert s.
  apply (reachable_ind' seeds (fun s => forall j t n a,
           trace s !! j = Some (Submit t (S n) a) ->
           should_continue a = true /\
           exists i, i < j /\ trace s !! i = Some (Result t n a))).
  - intros j t n a Hj. by apply lookup_start in Hj as (s0 & _ & ?).
  - intros s f r s' _ IH _ Hturn j t n a Hj.
    assert (Hrest : exists ext,
               trace s' = trace s ++ ext /\
               (ext = resubmit f r /\ should_continue r = true \/
                ext = retire f r))
      by (destruct Hturn; eexists; eauto).
    destruct Hrest as (ext & Htr & Hext). rewrite Htr in *. clear Htr.
    apply lookup_app_Some in Hj as [Hj | [Hge Hj]].
    + destruct (IH j t n a Hj) as (Hgo & i & Hlt & Hi).
      split; [done |]. exists i. split; [done |].
      by apply lookup_app_l_Some.
    + destruct Hext as [[-> Hgo] | ->];
        destruct (j - length (trace s)) as [| [| [| k]]] eqn:Hk; try done.
      injection Hj as <- <- <-. split; [done |].
      exists (length (trace s)). split; [lia |].
      by rewrite lookup_app_r, Nat.sub_diag by lia.
Qed.

Lemma result_then_print (seeds : list pos) (s : state) :
  reachable seeds s ->
  forall i t n r,
    trace s !! i = Some (Result t n r) ->
    trace s !! S i = Some (Print r) /\
    exists s0, seeds !! t = Some s0 /\ result_at t 0 s0 n = Some r.
Proof.
  revert s.
  apply (reachable_ind' seeds (fun s => forall i t n r,
           trace s !! i = Some (Result t n r) ->
           trace s !! S i = Some (Print r) /\
           exists s0, seeds !! t = Some s0 /\ result_at t 0 s0 n = Some r)).
  - intros i t n r Hi. by apply lookup_start in Hi as (s0 & _ & ?).
  - intros s f r s' Hs IH Hstep Hturn i t n r' Hi.
    assert (Hf : f ∈ ac s)
      by (destruct Hturn; by eapply list_elem_of_lookup_2).
    assert (Hrest : exists ext,
               trace s' = trace s ++ ext /\
               (ext = resubmit f r \/ ext = retire f r))
      by (destruct Hturn; eexists; eauto).
    destruct Hrest as (ext & Htr & Hext). rewrite Htr in *. clear Htr.
    apply lookup_app_Some in Hi as [Hi | [Hge Hi]].
    + destruct (IH i t n r' Hi) as [Hprint Hat].
      split; [| done]. by apply lookup_app_l_Some.
    + assert (Hi' : i - length (trace s) = 0 /\ t = task f /\
                     n = nstep f /\ r' = r).
      { destruct Hext as [-> | ->];
          destruct (i - length (trace s)) as [| [| [| k]]]; try done;
          by injection Hi as <- <- <-. }
      destruct Hi' as (Hk & -> & -> & ->). split.
      * rewrite lookup_app_r by lia.
        replace (S i - length (trace s)) with 1 by lia.
        by destruct Hext as [-> | ->].
      * apply on_chain_next; [by eapply outstanding_on_chain | done].
Qed.

(** **** The loop ends *)

Lemma ends_with_step (f : future) (w : nat * pos) (r : pos) :
  ends_with f w ->
  step_fn (task f) (nstep f) (arg f) = Returned r ->
  if should_continue r
  then exists k, w.1 = S k /\
         ends_with (Future (task f) (S (nstep f)) r) (k, w.2)
  else w = (0, r).
Proof.
  destruct w as [k r']. unfold Walks.ends_with, Walks.ends_at; cbn [fst snd].
  intros [Hat Hstop] Hstep.
  destruct k as [| k]; simpl in Hat; rewrite Hstep in Hat.
  - injection Hat as ->. by rewrite Hstop.
  - destruct (should_continue r); [| done]. by exists k.
Qed.

Lemma work_delete (ws : list (nat * pos)) (i : nat) (w : nat * pos) :
  ws !! i = Some w -> work ws = S w.1 + work (delete i ws).
Proof.
  intros Hi. unfold work.
  by rewrite (delete_Permutation ws i w Hi) at 1.
Qed.

Lemma run_drains (sched : list nat) (s : state) (ws : list (nat * pos)) :
  Forall2 ends_with (ac s) ws ->
  work ws <= length sched ->
  exists s',
    rtc turns s s' /\ ac s' = [] /\ run sched s = Finished (trace s').
Proof.
  revert s ws; induction sched as [| c sched IH]; intros s ws Hws Hfuel.
  - destruct ws as [| w ws]; [| simpl in Hfuel; lia].
    apply Forall2_nil_inv_r in Hws.
    exists s. simpl. by rewrite Hws.
  - simpl. destruct (iteration c s) as [s1 | | e] eqn:Hturn.
    + destruct (iteration_Continue c s s1 Hturn) as (f & r & Hstep & Hof).
      assert (Hnext : exists ws1,
                 Forall2 ends_with (ac s1) ws1 /\ S (work ws1) = work ws).
      { destruct Hof as [i Hi Hgo | i Hi Hgo]; cbn [ac];
          destruct (Forall2_lookup_l _ _ _ i f Hws Hi) as (w & Hw & Hends);
          pose proof (ends_with_step f w r Hends Hstep) as Hw';
          rewrite Hgo in Hw'; rewrite (work_delete ws i w Hw).
        - destruct Hw' as (k & Hk & Hends').
          exists (delete i ws ++ [(k, w.2)]). split.
          + apply Forall2_app; [by apply Forall2_delete |].
            constructor; [done | constructor].
          + unfold work. rewrite sum_list_with_app, Hk. simpl. lia.
        - exists (delete i ws). split; [by apply Forall2_delete |].
          by rewrite Hw'. }
      destruct Hnext as (ws1 & Hws1 & Hwork).
      destruct (IH s1 ws1 Hws1) as (s' & Hreach & Hempty & Hrun);
        [simpl in Hfuel; lia |].
      exists s'. split; [| done].
      eapply rtc_l; [by exists c | done].
    + exists s. by apply iteration_Exhausted in Hturn.
    + apply iteration_Failure in Hturn as (f & Hf & Hraise).
      apply list_elem_of_lookup_1 in Hf as [i Hi].
      destruct (Forall2_lookup_l _ _ _ i f Hws Hi) as ([k r] & _ & Hat & _).
      cbn [fst snd] in Hat.
      destruct k; simpl in Hat; by rewrite Hraise in Hat.
Qed.

Lemma start_plan (t0 : nat) (seeds : list pos) :
  (forall i s0, seeds !! i = Some s0 ->
     exists k r, ends_at (t0 + i) 0 s0 k r) ->
  exists ws, Forall2 ends_with (submit_all t0 seeds) ws.
Proof.
  revert t0; induction seeds as [| s0 seeds IH]; intros t0 Hends.
  - by exists [].
  - destruct (Hends 0 s0 eq_refl) as (k & r & Hkr).
    destruct (IH (S t0)) as (ws & Hws).
    { intros i s1 Hi. destruct (Hends (S i) s1 Hi) as (k1 & r1 & H1).
      exists k1, r1. by replace (S t0 + i) with (t0 + S i) by lia. }
    exists ((k, r) :: ws). constructor; [| done].
    unfold Walks.ends_with; cbn [task nstep arg fst snd].
    by rewrite Nat.add_0_r in Hkr.
Qed.

Lemma finished_run (seeds : list pos) (sched : list nat)
    (ws : list (nat * pos)) :
  Forall2 ends_with (submit_all 0 seeds) ws ->
  work ws <= length sched ->
  exists s,
    reachable seeds s /\ ac s = [] /\
    run sched (start seeds) = Finished (trace s).
Proof. intros Hws Hfuel. by apply (run_drains sched (start seeds) ws). Qed.

Lemma final_dones (seeds : list pos) (s : state) :
  reachable seeds s -> ac s = [] ->
  map fst (dones (trace s)) ≡ₚ seq 0 (length seeds).
Proof.
  intros Hs Hempty. apply tasks_partition in Hs.
  by rewrite Hempty, app_nil_r in Hs.
Qed.

Lemma dones_lookup (tr : list event) (t : nat) (r : pos) :
  (t, r) ∈ dones tr -> exists i, tr !! i = Some (Done t r).
Proof.
  intros Hin. apply list_elem_of_omap in Hin as (e & He & Hdone).
  apply list_elem_of_lookup_1 in He as [i Hi]. exists i.
  destruct e; simplify_eq/=. done.
Qed.

(** **** Identities *)

Lemma ends_at_unique (t n : nat) (a : pos) (k k' : nat) (r r' : pos) :
  ends_at t n a k r -> ends_at t n a k' r' -> k = k' /\ r = r'.
Proof.
  unfold Walks.ends_at.
  revert n a k'; induction k as [| k IH]; intros n a k' [Hat Hstop] [Hat' Hstop'];
    destruct k' as [| k']; simpl in *;
    destruct (step_fn t n a) as [r1 | e]; try done.
  - by simplify_eq.
  - simplify_eq. by rewrite Hstop in Hat'.
  - simplify_eq. by rewrite Hstop' in Hat.
  - destruct (should_continue r1); [| done].
    destruct (IH (S n) r1 k') as [-> ->]; done.
Qed.

Lemma result_at_id (t n : nat) (a : pos) (k : nat) (r : pos) :
  (forall t n a r, step_fn t n a = Returned r -> id r = id a) ->
  result_at t n a k = Some r -> id r = id a.
Proof.
  intros Hid. revert n a; induction k as [| k IH]; intros n a; simpl;
    destruct (step_fn t n a) as [r1 | e] eqn:Hstep; try done.
  - intros [= <-]. by eapply Hid.
  - destruct (should_continue r1); [| done].
    intros Hat. rewrite (IH _ _ Hat). by eapply Hid.
Qed.

Lemma done_ids_stdout (tr : list event) :
  done_ids (stdout tr) = map (fun w => id w.2) (dones tr).
Proof.
  induction tr as [| e tr IH]; [done |].
  destruct e; simpl; by rewrite ?IH.
Qed.

Lemma ids_by_position (pre seeds : list pos) :
  map (fun t => from_option id 0%Z ((pre ++ seeds) !! t))
      (seq (length pre) (length seeds))
  = map id seeds.
Proof.
  revert pre; induction seeds as [| s0 seeds IH]; intros pre; [done |].
  simpl. rewrite list_lookup_middle by done. simpl. f_equal.
  specialize (IH (pre ++ [s0])).
  by rewrite <- app_assoc, length_app, Nat.add_1_r in IH.
Qed.

Lemma ids_of_dones (seeds : list pos) (ds : list (nat * pos)) :
  map fst ds ≡ₚ seq 0 (length seeds) ->
  (forall t r, (t, r) ∈ ds ->
     exists s0, seeds !! t = Some s0 /\ id r = id s0) ->
  map (fun w => id w.2) ds ≡ₚ map id seeds.
Proof.
  intros Hperm Hids.
  rewrite <- (ids_by_position [] seeds). simpl. rewrite <- Hperm.
  clear Hperm. induction ds as [| [t r] ds IH]; [done |].
  simpl. destruct (Hids t r) as (s0 & -> & ->); [by left |].
  simpl. rewrite IH; [done |].
  intros t' r' Hin. apply Hids. by right.
Qed.

(** **** Every result of a chain is in the trace *)

Lemma result_at_passes (t m : nat) (a : pos) (k j : nat) (r rj : pos) :
  ends_at t m a k r -> j < k -> result_at t m a j = Some rj ->
  should_continue rj = true.
Proof.
  intros Hend Hlt Hat.
  destruct (should_continue rj) eqn:Hgo; [done |].
  destruct (ends_at_unique t m a k j r rj Hend) as [-> _]; [done | lia].
Qed.

Lemma earlier_results (seeds : list pos) (s : state) :
  reachable seeds s ->
  (forall f, f ∈ ac s -> forall n, n < nstep f ->
     exists i r, trace s !! i = Some (Result (task f) n r)) /\
  (forall j t r, trace s !! j = Some (Done t r) ->
     forall n, n < observed t (take j (trace s)) ->
       exists i rn, i < j /\ trace s !! i = Some (Result t n rn)).
Proof.
  revert s.
  apply (reachable_ind' seeds (fun s =>
    (forall f, f ∈ ac s -> forall n, n < nstep f ->
       exists i r, trace s !! i = Some (Result (task f) n r)) /\
    (forall j t r, trace s !! j = Some (Done t r) ->
       forall n, n < observed t (take j (trace s)) ->
         exists i rn, i < j /\ trace s !! i = Some (Result t n rn)))).
  - split.
    + intros f Hf n Hn. apply list_elem_of_lookup_1 in Hf as [i Hi].
      apply lookup_submit_all in Hi as (s0 & _ & ->). simpl in Hn. lia.
    + intros j t r Hj. by apply lookup_start in Hj as (s0 & _ & ?).
  - intros s f r s' Hs [IHa IHb] Hstep Hturn.
    assert (Hf : f ∈ ac s)
      by (destruct Hturn; by eapply list_elem_of_lookup_2).
    assert (Hold : forall g, g ∈ ac s -> forall n ext, n < nstep g ->
              exists i r0,
                (trace s ++ ext) !! i = Some (Result (task g) n r0)).
    { intros g Hg n ext Hn. destruct (IHa g Hg n Hn) as (i & r0 & Hi).
      exists i, r0. by apply lookup_app_l_Some. }
    assert (Hnew : forall ext,
              (trace s ++ Result (task f) (nstep f) r :: ext)
                !! length (trace s)
              = Some (Result (task f) (nstep f) r))
      by (intros ext; by rewrite list_lookup_middle).
    split.
    + intros g Hg n Hn.
      destruct Hturn as [i Hi Hgo | i Hi Hgo]; cbn [ac trace] in *.
      * apply elem_of_app in Hg as [Hg | Hg].
        -- apply Hold; [by eapply list_elem_of_delete_inv | done].
        -- apply list_elem_of_singleton in Hg as ->.
           cbn [task nstep] in *.
           destruct (decide (n = nstep f)) as [-> | Hne].
           ++ eexists _, _. apply Hnew.
           ++ apply Hold; [done | lia].
      * apply Hold; [by eapply list_elem_of_delete_inv | done].
    + intros j t r' Hj n Hn.
      assert (Hrest : exists ext,
                 trace s' = trace s ++ ext /\
                 (ext = resubmit f r \/ ext = retire f r))
        by (destruct Hturn; eexists; eauto).
      destruct Hrest as (ext & Htr & Hext). rewrite Htr in *. clear Htr.
      apply lookup_app_Some in Hj as [Hj | [Hge Hj]].
      * rewrite take_app_le in Hn by (apply lookup_lt_Some in Hj; lia).
        destruct (IHb j t r' Hj n Hn) as (i & rn & Hlt & Hi).
        exists i, rn. split; [done |]. by apply lookup_app_l_Some.
      * assert (Hj' : ext = retire f r /\ j = length (trace s) + 2 /\
                       t = task f).
        { destruct Hext as [-> | ->];
            destruct (j - length (trace s)) as [| [| [| k]]] eqn:Hk;
            try done.
          injection Hj as <- <-. split; [done |]. split; [lia | done]. }
        destruct Hj' as (-> & -> & ->).
        destruct (outstanding_counts seeds s Hs f Hf) as [Hobs _].
        rewrite take_app, take_ge in Hn by lia.
        replace (length (trace s) + 2 - length (trace s)) with 2 in Hn
          by lia.
        unfold observed in *. rewrite count_app, Hobs in Hn.
        unfold count in Hn; simpl in Hn. rewrite Nat.eqb_refl in Hn.
        simpl in Hn.
        destruct (decide (n = nstep f)) as [-> | Hne].
        -- exists (length (trace s)), r. split; [lia |]. apply Hnew.
        -- destruct (IHa f Hf n) as (i & rn & Hi); [lia |].
           exists i, rn. split.
           ++ apply lookup_lt_Some in Hi. lia.
           ++ by apply lookup_app_l_Some.
Qed.

(** **** The loop against its specification *)

(** C1.  Let every seed start a chain that ends: after some number of
    results that pass the test, one fails it (and no step raises on the
    way).  Then there is a number of turns after which the loop has
    ended, whatever the order in which the futures complete.  Its trace
    has one [Done] per seed, hence as many as there are seeds, one for
    each task, and each is the end of the chain of its task.  When [step]
    keeps the id of its argument, as the source's does, each carries the
    id of its seed, and the "Walk ... is done" lines name the ids of the
    seeds, each once.  The seeds need not be non-empty. *)
Theorem every_walk_ends_once (seeds : list pos) :
  (forall t s0, seeds !! t = Some s0 -> exists k r, ends_at t 0 s0 k r) ->
  exists fuel,
    forall sched, fuel <= length sched ->
      exists tr,
        run sched (start seeds) = Finished tr /\
        length (dones tr) = length seeds /\
        map fst (dones tr) ≡ₚ seq 0 (length seeds) /\
        (forall t r, (t, r) ∈ dones tr ->
           exists s0 k, seeds !! t = Some s0 /\ ends_at t 0 s0 k r) /\
        ((forall t n a r, step_fn t n a = Returned r -> id r = id a) ->
         done_ids (stdout tr) ≡ₚ map id seeds /\
         forall t r, (t, r) ∈ dones tr ->
           exists s0, seeds !! t = Some s0 /\ id r = id s0).
Proof.
  intros Hends.
  destruct (start_plan 0 seeds Hends) as (ws & Hws).
  exists (work ws). intros sched Hfuel.
  destruct (finished_run seeds sched ws Hws Hfuel) as (s & Hs & Hempty & Hrun).
  exists (trace s). split; [done |].
  pose proof (final_dones seeds s Hs Hempty) as Hperm.
  assert (Hone : forall t r, (t, r) ∈ dones (trace s) ->
            exists s0 k, seeds !! t = Some s0 /\ ends_at t 0 s0 k r).
  { intros t r Hin. apply dones_lookup in Hin as [i Hi].
    destruct (done_after seeds s Hs i t r Hi) as (s0 & k & Hs0 & Hend & _).
    by exists s0, k. }
  split; [| split; [done | split; [done |]]].
  - apply Permutation_length in Hperm.
    by rewrite length_map, length_seq in Hperm.
  - intros Hid.
    assert (Hids : forall t r, (t, r) ∈ dones (trace s) ->
              exists s0, seeds !! t = Some s0 /\ id r = id s0).
    { intros t r Hin. destruct (Hone t r Hin) as (s0 & k & Hs0 & Hat & _).
      exists s0. split; [done |]. by eapply result_at_id. }
    split; [| done].
    rewrite done_ids_stdout. by apply ids_of_dones.
Qed.

(** C4.  In every state the loop passes through, no two futures in [ac]
    belong to one task, and a task with a future in [ac] has exactly one
    submission whose result the loop has not taken.  A step after the
    first is submitted after the result of the step before it has been
    taken from its future, with that result as its argument. *)
Theorem one_step_outstanding (seeds : list pos) (s : state) :
  reachable seeds s ->
  NoDup (map task (ac s)) /\
  (forall f, f ∈ ac s ->
     submissions (task f) (trace s) = S (observed (task f) (trace s))) /\
  (forall j t n a,
     trace s !! j = Some (Submit t (S n) a) ->
     exists i, i < j /\ trace s !! i = Some (Result t n a)).
Proof.
  intros Hs. split; [by eapply outstanding_once |]. split.
  - intros f Hf.
    by destruct (outstanding_counts seeds s Hs f Hf) as [-> ->].
  - intros j t n a Hj.
    by destruct (submit_after_result seeds s Hs j t n a Hj) as [_ ?].
Qed.

(** C3, as the code has it.  Let the chain of task [t] pass the test on
    its first [k] results and fail it on the next, [r].  Wherever the
    trace has the [Done] of [t], it is for [r], and exactly [k+1] steps of
    [t] were submitted and exactly [k+1] results of [t] taken before it.
    Each of the [k] results before [r] was taken from its future before
    that point and printed at once by [print(r)]: the output shows the
    intermediate results. *)
Theorem done_after_every_step (seeds : list pos) (s : state)
    (t : nat) (s0 : pos) (k : nat) (r : pos) (j : nat) (r' : pos) :
  reachable seeds s ->
  seeds !! t = Some s0 ->
  ends_at t 0 s0 k r ->
  trace s !! j = Some (Done t r') ->
  r' = r /\
  submissions t (take j (trace s)) = S k /\
  observed t (take j (trace s)) = S k /\
  forall n, n < k ->
    exists i rn,
      i < j /\
      result_at t 0 s0 n = Some rn /\ should_continue rn = true /\
      trace s !! i = Some (Result t n rn) /\
      trace s !! S i = Some (Print rn).
Proof.
  intros Hs Hs0 Hend Hj.
  destruct (done_after seeds s Hs j t r' Hj)
    as (s0' & k' & Hs0' & Hend' & [Hobs Hsub] & _).
  assert (s0' = s0) as -> by congruence.
  destruct (ends_at_unique t 0 s0 k' k r' r Hend' Hend) as [-> ->].
  split; [done |]. split; [done |]. split; [done |].
  intros n Hn.
  destruct (earlier_results seeds s Hs) as [_ Hall].
  destruct (Hall j t r Hj n) as (i & rn & Hlt & Hi); [lia |].
  destruct (result_then_print seeds s Hs i t n rn Hi)
    as (Hprint & s0' & Hs0'' & Hat).
  assert (s0' = s0) as -> by congruence.
  exists i, rn. split; [done |]. split; [done |].
  split; [by eapply result_at_passes | done].
Qed.

Lemma work_single_steps (fs : list future) (ws : list (nat * pos)) :
  Forall2 ends_with fs ws ->
  (forall f, f ∈ fs -> exists r, ends_with f (0, r)) ->
  work ws = length fs.
Proof.
  induction 1 as [| f w fs ws Hw _ IH]; intros Hzero; [done |].
  destruct (Hzero f) as [r Hr]; [by left |].
  destruct w as [k r'].
  destruct (ends_at_unique _ _ _ _ _ _ _ Hw Hr) as [Hk _].
  cbn [fst] in Hk. subst k.
  unfold work in *. simpl. f_equal. apply IH.
  intros g Hg. apply Hzero. by right.
Qed.

(** C6.  Let the test fail on every result, and let [step] return on
    every seed.  Then, whatever the order of completion, the loop ends
    within as many turns as there are seeds; every seed was submitted
    once and its result taken once; that first result is the one its
    walk is done with; and nothing was submitted besides the seeds: the
    trace has no submission of a later step. *)
Theorem one_step_each (seeds : list pos) (sched : list nat) :
  (forall r, should_continue r = false) ->
  (forall t s0, seeds !! t = Some s0 ->
     exists r, step_fn t 0 s0 = Returned r) ->
  length seeds <= length sched ->
  exists tr,
    run sched (start seeds) = Finished tr /\
    length (dones tr) = length seeds /\
    (forall t s0, seeds !! t = Some s0 ->
       exists r,
         step_fn t 0 s0 = Returned r /\ (t, r) ∈ dones tr /\
         submissions t tr = 1 /\ observed t tr = 1) /\
    (forall j t n a, tr !! j = Some (Submit t n a) -> n = 0).
Proof.
  intros Hnever Hstep Hfuel.
  assert (Hends : forall t s0, seeds !! t = Some s0 ->
            exists r, step_fn t 0 s0 = Returned r /\ ends_at t 0 s0 0 r).
  { intros t s0 Hs0. destruct (Hstep t s0 Hs0) as [r Hr].
    exists r. split; [done |]. split; [| done]. simpl. by rewrite Hr. }
  destruct (start_plan 0 seeds) as (ws & Hws).
  { intros t s0 Hs0. destruct (Hends t s0 Hs0) as (r & _ & ?).
    by exists 0, r. }
  assert (Hwork : work ws = length (submit_all 0 seeds)).
  { apply work_single_steps; [done |].
    intros f Hf. apply list_elem_of_lookup_1 in Hf as [i Hi].
    apply lookup_submit_all in Hi as (s0 & Hs0 & ->).
    destruct (Hends i s0 Hs0) as (r & _ & ?). by exists r. }
  assert (Hlen : length (submit_all 0 seeds) = length seeds).
  { rewrite <- (length_map task), task_submit_all. apply length_seq. }
  destruct (finished_run seeds sched ws Hws) as (s & Hs & Hempty & Hrun);
    [lia |].
  pose proof (final_dones seeds s Hs Hempty) as Hperm.
  exists (trace s). split; [done |]. split; [| split].
  - apply Permutation_length in Hperm.
    by rewrite length_map, length_seq in Hperm.
  - intros t s0 Hs0. destruct (Hends t s0 Hs0) as (r & Hr & Hend).
    exists r. split; [done |].
    assert (Hin : t ∈ map fst (dones (trace s))).
    { rewrite Hperm. apply elem_of_seq. apply lookup_lt_Some in Hs0. lia. }
    apply list_elem_of_fmap_1 in Hin as ([t' r'] & -> & Hin).
    cbn [fst] in *.
    destruct (dones_lookup _ _ _ Hin) as [j Hj].
    destruct (done_after seeds s Hs j t' r' Hj)
      as (s0' & n & Hs0' & Hend' & _ & Hobs & Hsub).
    assert (s0' = s0) as -> by congruence.
    destruct (ends_at_unique _ _ _ _ _ _ _ Hend' Hend) as [-> ->].
    done.
  - intros j t n a Hj. destruct n as [| n]; [done |].
    destruct (submit_after_result seeds s Hs j t n a Hj) as [Hgo _].
    by rewrite Hnever in Hgo.
Qed.

(** **** When a step raises *)

Lemma run_Raised_app (sched more : list nat) (s : state) (e : exn)
    (tr : list event) :
  run sched s = Raised e tr -> run (sched ++ more) s = Raised e tr.
Proof.
  revert s; induction sched as [| c sched IH]; intros s; simpl.
  - by destruct (ac s).
  - destruct (iteration c s) as [s1 | | e']; [apply IH | done | done].
Qed.

Lemma run_Finished (sched : list nat) (s : state) (tr : list event) :
  run sched s = Finished tr ->
  exists s', rtc turns s s' /\ ac s' = [] /\ trace s' = tr.
Proof.
  revert s; induction sched as [| c sched IH]; intros s; simpl.
  - destruct (ac s) eqn:Hac; [| done]. intros [= <-]. by exists s.
  - destruct (iteration c s) as [s1 | | e] eqn:Hturn; [| | done].
    + intros Hrun. destruct (IH s1 Hrun) as (s' & Hreach & Hac & Htr).
      exists s'. split; [| done].
      eapply rtc_l; [by exists c | done].
    + intros [= <-]. exists s. by apply iteration_Exhausted in Hturn.
Qed.

Lemma run_Waiting (sched : list nat) (s s' : state) :
  run sched s = Waiting s' ->
  rtc turns s s' /\ ac s' <> [] /\
  forall more, run (sched ++ more) s = run more s'.
Proof.
  revert s; induction sched as [| c sched IH]; intros s; simpl.
  - destruct (ac s) eqn:Hac; [done |]. intros [= <-].
    split; [done |]. split; [by rewrite Hac | done].
  - destruct (iteration c s) as [s1 | | e] eqn:Hturn; [| done | done].
    intros Hrun. destruct (IH s1 Hrun) as (Hreach & Hne & Hmore).
    split; [| done]. eapply rtc_l; [by exists c | done].
Qed.

Lemma ends_not_fails (t n : nat) (a : pos) (k : nat) (r : pos)
    (m : nat) (e : exn) :
  ends_at t n a k r -> failure_at t n a m = Some e -> False.
Proof.
  unfold Walks.ends_at.
  revert n a m; induction k as [| k IH]; intros n a m [Hat Hstop] Hfail;
    destruct m as [| m]; simpl in *;
    destruct (step_fn t n a) as [r1 | e1]; try done.
  - simplify_eq. by rewrite Hstop in Hfail.
  - destruct (should_continue r1); [| done]. by eapply (IH (S n) r1 m).
Qed.

Lemma failure_at_unique (t n : nat) (a : pos) (m m' : nat) (e e' : exn) :
  failure_at t n a m = Some e -> failure_at t n a m' = Some e' ->
  m = m' /\ e = e'.
Proof.
  revert n a m'; induction m as [| m IH]; intros n a m' Hm Hm';
    destruct m' as [| m']; simpl in *;
    destruct (step_fn t n a) as [r1 | e1]; try done.
  - by simplify_eq.
  - destruct (should_continue r1); [| done].
    by destruct (IH (S n) r1 m' Hm Hm') as [-> ->].
Qed.

Lemma failure_at_snoc (t m n : nat) (a r : pos) (e : exn) :
  result_at t m a n = Some r ->
  should_continue r = true ->
  step_fn t (m + S n) r = Raises e ->
  failure_at t m a (S n) = Some e.
Proof.
  revert m a; induction n as [| n IH]; intros m a; simpl.
  - destruct (step_fn t m a) as [r1 | e1] eqn:H1; [| done].
    intros [= ->] -> Hnext.
    replace (m + 1) with (S m) in Hnext by lia. by rewrite Hnext.
  - destruct (step_fn t m a) as [r1 | e1] eqn:H1; [| done].
    destruct (should_continue r1) eqn:Hgo; [| done].
    intros Hr Hr' Hnext.
    apply (IH (S m) r1 Hr Hr').
    by replace (S m + S n) with (m + S (S n)) by lia.
Qed.

Lemma on_chain_fails (seeds : list pos) (f : future) (e : exn) :
  on_chain seeds f ->
  step_fn (task f) (nstep f) (arg f) = Raises e ->
  exists s0,
    seeds !! task f = Some s0 /\
    failure_at (task f) 0 s0 (nstep f) = Some e.
Proof.
  intros (s0 & Hs0 & Hat) Hstep. exists s0. split; [done |].
  destruct (nstep f) as [| n] eqn:Hn.
  - subst s0. simpl. by rewrite Hstep.
  - destruct Hat as [Hat Hgo]. by apply (failure_at_snoc _ 0 n s0 (arg f)).
Qed.

Lemma failing_never_done (seeds : list pos) (s : state) (t : nat)
    (s0 : pos) (m : nat) (e : exn) :
  reachable seeds s ->
  seeds !! t = Some s0 ->
  failure_at t 0 s0 m = Some e ->
  t ∉ map fst (dones (trace s)).
Proof.
  intros Hs Hs0 Hfail Hin.
  apply list_elem_of_fmap_1 in Hin as ([t' r] & -> & Hin).
  cbn [fst] in *. apply dones_lookup in Hin as [j Hj].
  destruct (done_after seeds s Hs j t' r Hj) as (s0' & k & Hs0' & Hend & _).
  assert (s0' = s0) as -> by congruence.
  by eapply ends_not_fails.
Qed.

Lemma settles_step (f : future) (k : nat) (r : pos) :
  settles_with f k ->
  step_fn (task f) (nstep f) (arg f) = Returned r ->
  if should_continue r
  then exists k', k = S k' /\
         settles_with (Future (task f) (S (nstep f)) r) k'
  else k = 0.
Proof.
  unfold Walks.settles_with, Walks.settles, Walks.ends_at; cbn [task nstep arg].
  intros [(r' & Hat & Hstop) | (e & Hfail)] Hstep;
    destruct k as [| k]; simpl in *; rewrite Hstep in *.
  - injection Hat as ->. by rewrite Hstop.
  - destruct (should_continue r); [| done]. exists k. split; [done |].
    left. by exists r'.
  - done.
  - destruct (should_continue r); [| done]. exists k. split; [done |].
    right. by exists e.
Qed.

Lemma turns_delete (ws : list nat) (i w : nat) :
  ws !! i = Some w ->
  sum_list_with S ws = S w + sum_list_with S (delete i ws).
Proof. intros Hi. by rewrite (delete_Permutation ws i w Hi) at 1. Qed.

Lemma run_settles (sched : list nat) (s : state) (ws : list nat) :
  Forall2 settles_with (ac s) ws ->
  sum_list_with S ws <= length sched ->
  exists s',
    rtc turns s s' /\
    (ac s' = [] /\ run sched s = Finished (trace s') \/
     exists e f,
       f ∈ ac s' /\ step_fn (task f) (nstep f) (arg f) = Raises e /\
       run sched s = Raised e (trace s')).
Proof.
  revert s ws; induction sched as [| c sched IH]; intros s ws Hws Hfuel.
  - destruct ws as [| w ws]; [| simpl in Hfuel; lia].
    apply Forall2_nil_inv_r in Hws.
    exists s. split; [done |]. left. simpl. by rewrite Hws.
  - simpl. destruct (iteration c s) as [s1 | | e] eqn:Hturn.
    + destruct (iteration_Continue c s s1 Hturn) as (f & r & Hstep & Hof).
      assert (Hnext : exists ws1,
                 Forall2 settles_with (ac s1) ws1 /\
                 S (sum_list_with S ws1) = sum_list_with S ws).
      { destruct Hof as [i Hi Hgo | i Hi Hgo]; cbn [ac];
          destruct (Forall2_lookup_l _ _ _ i f Hws Hi) as (w & Hw & Hends);
          pose proof (settles_step f w r Hends Hstep) as Hw';
          rewrite Hgo in Hw';
          rewrite (turns_delete ws i w Hw).
        - destruct Hw' as (k & -> & Hends').
          exists (delete i ws ++ [k]). split.
          + apply Forall2_app; [by apply Forall2_delete |].
            constructor; [done | constructor].
          + rewrite sum_list_with_app. simpl. lia.
        - subst w. exists (delete i ws). split; [by apply Forall2_delete |].
          done. }
      destruct Hnext as (ws1 & Hws1 & Hwork).
      destruct (IH s1 ws1 Hws1) as (s' & Hreach & Hend);
        [simpl in Hfuel; lia |].
      exists s'. split; [| done].
      eapply rtc_l; [by exists c | done].
    + exists s. split; [done |]. left.
      by apply iteration_Exhausted in Hturn.
    + apply iteration_Failure in Hturn as (f & Hf & Hraise).
      exists s. split; [done |]. right. by exists e, f.
Qed.

Lemma start_settles (t0 : nat) (seeds : list pos) :
  (forall i s0, seeds !! i = Some s0 -> exists k, settles (t0 + i) 0 s0 k) ->
  exists ws, Forall2 settles_with (submit_all t0 seeds) ws.
Proof.
  revert t0; induction seeds as [| s0 seeds IH]; intros t0 Hends.
  - by exists [].
  - destruct (Hends 0 s0 eq_refl) as (k & Hk).
    destruct (IH (S t0)) as (ws & Hws).
    { intros i s1 Hi. destruct (Hends (S i) s1 Hi) as (k1 & H1).
      exists k1. by replace (S t0 + i) with (t0 + S i) by lia. }
    exists (k :: ws). constructor; [| done].
    unfold Walks.settles_with; cbn [task nstep arg].
    by rewrite Nat.add_0_r in Hk.
Qed.


(** C7, as the code has it.  Let the loop have reached a state with
    futures outstanding, and let the future it takes next be one whose
    step raised.  Then the run ends there by that exception, whatever
    would have completed afterwards, and what it did up to that state is
    all it ever does.  The tasks split into those done before and those
    outstanding at that state; some task is outstanding, so fewer walks
    are done than were started; and no outstanding task, whether its own
    step raised or not, is ever reported done. *)
Theorem failure_stops_every_walk (seeds : list pos) (pre : list nat)
    (c : nat) (post : list nat) (s : state) (f0 : future)
    (fs : list future) (e : exn) :
  run pre (start seeds) = Waiting s ->
  ac s = f0 :: fs ->
  step_fn (task (pick c f0 fs).1) (nstep (pick c f0 fs).1)
    (arg (pick c f0 fs).1) = Raises e ->
  run (pre ++ c :: post) (start seeds) = Raised e (trace s) /\
  map fst (dones (trace s)) ++ map task (ac s) ≡ₚ seq 0 (length seeds) /\
  length (dones (trace s)) < length seeds /\
  forall g, g ∈ ac s -> task g ∉ map fst (dones (trace s)).
Proof.
  intros Hpre Hac Hraise.
  destruct (run_Waiting pre (start seeds) s Hpre) as (Hs & _ & Hmore).
  pose proof (tasks_partition seeds s Hs) as Hperm.
  split; [| split; [done | split]].
  - rewrite Hmore. cbn [Walks.run]. unfold Walks.iteration. rewrite Hac.
    destruct (pick c f0 fs) as [f rest]; cbn [fst] in Hraise.
    by rewrite Hraise.
  - apply Permutation_length in Hperm.
    rewrite length_app, !length_map, length_seq, Hac in Hperm.
    simpl in Hperm. lia.
  - intros g Hg. by eapply outstanding_not_done.
Qed.

End Loop.

(** *** The walks of the scenario *)

Section Scenario.
Import Walks.
Local Open Scope string_scope.

Lemma within_by_product (sq : float -> option float) (r : pos) :
  sq (x r) = Some (x r * x r)%float ->
  sq (y r) = Some (y r * y r)%float ->
  within_by sq r = Some (within r).
Proof. unfold within_by, within. by intros -> ->. Qed.

Lemma steady_keeps_id (t n : nat) (a r : pos) :
  walk_step steady t n a = Returned r -> id r = id a.
Proof. by intros [= <-]. Qed.

Lemma steady_ends (t : nat) (s0 : pos) :
  origins 2 !! t = Some s0 ->
  ends_at (walk_step steady) within t 0 s0 3
    (Pos (Z.of_nat t) 2%float 0%float).
Proof.
  destruct t as [| [| t]]; [| | done]; intros [= <-]; by vm_compute.
Qed.

Lemma map_by_task {B : Type} (g : nat * pos -> B) (h : nat -> B)
    (ds : list (nat * pos)) :
  (forall w, w ∈ ds -> g w = h w.1) -> map g ds = map h (map fst ds).
Proof.
  induction ds as [| w ds IH]; intros Hgh; [done |].
  simpl. rewrite (Hgh w) by by left. f_equal.
  apply IH. intros w' Hw'. apply Hgh. by right.
Qed.

(** C5.  Two walks from the origin, every step adding 0.5 to [x], under
    the test of the loop (squared distance below 4).  The results of
    either chain are at [x] = 0.5, 1, 1.5 and 2, and the first three pass
    the test.  Whatever the order of completion, once eight futures have
    completed the loop has ended; each task was submitted four times and
    gave four results; and the walks done, as (id, final x), are (0, 2)
    and (1, 2), in some order. *)
Theorem steady_walks (sched : list nat) :
  8 <= length sched ->
  exists tr,
    run (walk_step steady) within sched (start (origins 2)) = Finished tr /\
    map (fun w => (id w.2, x w.2)) (dones tr)
      ≡ₚ [(0%Z, 2%float); (1%Z, 2%float)] /\
    (forall t, t < 2 -> submissions t tr = 4 /\ observed t tr = 4) /\
    (forall t s0, origins 2 !! t = Some s0 ->
       map (fun n => x <$> result_at (walk_step steady) within t 0 s0 n)
           [0; 1; 2; 3]
       = [Some 0.5; Some 1; Some 1.5; Some 2]%float /\
       map (fun n => within <$> result_at (walk_step steady) within t 0 s0 n)
           [0; 1; 2; 3]
       = [Some true; Some true; Some true; Some false]).
Proof.
  intros Hfuel.
  set (ws := [(3, Pos 0 2%float 0%float); (3, Pos 1 2%float 0%float)]).
  destruct (finished_run (walk_step steady) within (origins 2) sched ws)
    as (s & Hs & Hempty & Hrun).
  { repeat constructor; by vm_compute. }
  { done. }
  pose proof (final_dones _ _ _ s Hs Hempty) as Hperm.
  assert (Hdone : forall t r, (t, r) ∈ dones (trace s) ->
            r = Pos (Z.of_nat t) 2%float 0%float /\
            submissions t (trace s) = 4 /\ observed t (trace s) = 4).
  { intros t r Hin. apply dones_lookup in Hin as [j Hj].
    destruct (done_after _ _ _ s Hs j t r Hj)
      as (s0 & n & Hs0 & Hend & _ & Hobs & Hsub).
    destruct (ends_at_unique _ _ _ _ _ _ _ _ _ Hend (steady_ends t s0 Hs0))
      as [-> ->].
    done. }
  exists (trace s). split; [done |]. split; [| split].
  - rewrite (map_by_task _ (fun t => (Z.of_nat t, 2%float))).
    + by rewrite Hperm.
    + intros [t r] Hin. by destruct (Hdone t r Hin) as [-> _].
  - intros t Ht.
    assert (Hin : t ∈ map fst (dones (trace s))).
    { rewrite Hperm. apply elem_of_seq. simpl. lia. }
    apply list_elem_of_fmap_1 in Hin as ([t' r] & -> & Hin).
    by destruct (Hdone t' r Hin) as (_ & ? & ?).
  - intros t s0.
    destruct t as [| [| t]]; [| | done]; intros [= <-]; by vm_compute.
Qed.

Lemma steady_walks_witness :
  exists tr,
    run (walk_step steady) within [1; 5; 2; 0; 3; 1; 0; 0]
      (start (origins 2)) = Finished tr /\
    map (fun w => (id w.2, x w.2)) (dones tr)
      ≡ₚ [(0%Z, 2%float); (1%Z, 2%float)].
Proof.
  destruct (steady_walks [1; 5; 2; 0; 3; 1; 0; 0]) as (tr & Hrun & Hset & _).
  - simpl. lia.
  - exists tr. split; [exact Hrun | exact Hset].
Defined.

(** **** The general statements, on the scenario *)

Lemma every_walk_ends_once_witness :
  exists fuel,
    forall sched, fuel <= length sched ->
      exists tr,
        run (walk_step steady) within sched (start (origins 2))
          = Finished tr /\
        length (dones tr) = 2 /\
        done_ids (stdout tr) ≡ₚ [0; 1]%Z.
Proof.
  destruct (every_walk_ends_once (walk_step steady) within (origins 2))
    as [fuel Hfuel].
  - intros t s0 Hs0. eexists _, _. by apply steady_ends.
  - exists fuel. intros sched Hsched.
    destruct (Hfuel sched Hsched) as (tr & Hrun & Hlen & _ & _ & Hids).
    destruct (Hids steady_keeps_id) as [Hperm _].
    by exists tr.
Defined.

Lemma one_step_outstanding_witness :
  exists s,
    reachable (walk_step steady) within (origins 2) s /\
    map task (ac s) = [1; 0] /\
    NoDup (map task (ac s)) /\
    forall f, f ∈ ac s ->
      submissions (task f) (trace s) = S (observed (task f) (trace s)).
Proof.
  eexists.
  assert (Hs : reachable (walk_step steady) within (origins 2) _)
    by (apply rtc_once; exists 0; reflexivity).
  split; [exact Hs |]. split; [reflexivity |].
  destruct (one_step_outstanding _ _ _ _ Hs) as (Hnd & Hone & _).
  by split.
Defined.

Lemma done_after_every_step_witness :
  exists tr,
    run (walk_step steady) within [0; 0; 0; 0] (start (origins 1))
      = Finished tr /\
    tr !! 12 = Some (Done 0 (Pos 0 2%float 0%float)) /\
    submissions 0 (take 12 tr) = 4 /\
    observed 0 (take 12 tr) = 4.
Proof.
  eexists. split; [vm_compute; reflexivity |].
  split; [reflexivity |].
  destruct (run_Finished (walk_step steady) within [0; 0; 0; 0]
              (start (origins 1)) _ eq_refl) as (s & Hs & _ & Htr).
  destruct (done_after_every_step (walk_step steady) within (origins 1) s
              0 (Pos 0 0%float 0%float) 3 (Pos 0 2%float 0%float)
              12 (Pos 0 2%float 0%float))
    as (_ & Hsub & Hobs & _).
  - exact Hs.
  - reflexivity.
  - by vm_compute.
  - rewrite Htr. reflexivity.
  - rewrite Htr in Hsub, Hobs. by split.
Defined.

Lemma one_step_each_witness :
  exists tr,
    run (walk_step steady) never [2; 0; 1] (start (origins 3))
      = Finished tr /\
    length (dones tr) = 3.
Proof.
  destruct (one_step_each (walk_step steady) never (origins 3) [2; 0; 1])
    as (tr & Hrun & Hlen & _).
  - reflexivity.
  - intros t s0 _. eexists. reflexivity.
  - simpl. lia.
  - by exists tr.
Defined.


Lemma failure_stops_every_walk_witness :
  exists s,
    run faulty within [0] (start (origins 2)) = Waiting s /\
    run faulty within ([0] ++ 1 :: [0; 0; 0]) (start (origins 2))
      = Raised "step failed" (trace s) /\
    length (dones (trace s)) < 2.
Proof.
  pose (f1 := Future 1 0 (Pos 1 0%float 0%float)).
  pose (f0 := Future 0 1 (Pos 0 0.5%float 0%float)).
  pose (s := {| ac := [f1; f0];
                trace := [Submit 0 0 (Pos 0 0%float 0%float);
                          Submit 1 0 (Pos 1 0%float 0%float);
                          Result 0 0 (Pos 0 0.5%float 0%float);
                          Print (Pos 0 0.5%float 0%float);
                          Submit 0 1 (Pos 0 0.5%float 0%float)] |}).
  assert (Hpre : run faulty within [0] (start (origins 2)) = Waiting s)
    by reflexivity.
  exists s. split; [exact Hpre |].
  destruct (failure_stops_every_walk faulty within (origins 2)
              [0] 1 [0; 0; 0] s f1 [f0] "step failed" Hpre)
    as (Hrun & _ & Hlt & _).
  - reflexivity.
  - reflexivity.
  - split; [exact Hrun | exact Hlt].
Defined.

(** **** Where the code departs from the specification *)


(** C3 does not hold of the code.  One walk whose chain passes the test
    three times and ends at the fourth result: the output shows the three
    intermediate positions, each of which passes the test, before the
    last one and the "done" line. *)
Lemma intermediate_results_are_printed :
  exists tr,
    run (walk_step steady) within [0; 0; 0; 0] (start (origins 1))
      = Finished tr /\
    ends_at (walk_step steady) within 0 0 (Pos 0 0%float 0%float) 3
      (Pos 0 2%float 0%float) /\
    within (Pos 0 0.5%float 0%float) = true /\
    stdout tr =
      [ShowPos (Pos 0 0.5%float 0%float);
       ShowPos (Pos 0 1%float 0%float);
       ShowPos (Pos 0 1.5%float 0%float);
       ShowPos (Pos 0 2%float 0%float);
       WalkDone 0].
Proof. eexists. split; [vm_compute; reflexivity |]. by vm_compute. Qed.

(** C7 does not hold of the code.  Walk 1 is one step from its end, and
    its own steps never raise, when the second step of walk 0 raises: the
    run ends there, and walk 1 is never done, however many more futures
    the pool would have completed. *)
Lemma failure_of_one_walk_cuts_the_other :
  exists tr,
    run faulty within [0; 0; 1; 1; 0; 0; 0; 0; 0; 0] (start (origins 2))
      = Raised "step failed" tr /\
    ends_at faulty within 1 0 (Pos 1 0%float 0%float) 3
      (Pos 1 2%float 0%float) /\
    observed 1 tr = 3 /\
    dones tr = [].
Proof. eexists. split; [vm_compute; reflexivity |]. by vm_compute. Qed.

End Scenario.

(* ===================================================================== *)
(** ** Further properties of the notebooks' code *)
(* ===================================================================== *)

(** *** The price classifier *)

Section ThresholdOrder.
Import ML.
Local Open Scope Z_scope.

(** X1.  [threshold] keeps the order of prices: a price that is not
    lower is never put in a lower class. *)
Theorem threshold_monotone (p q : Z) :
  p <= q -> threshold p <= threshold q.
Proof.
  intros Hpq. unfold threshold, THRESHOLDS; cbn [fst snd].
  rewrite !Z.gtb_ltb.
  destruct (Z.ltb_spec p 1200), (Z.ltb_spec q 1200),
    (Z.ltb_spec 11000 p), (Z.ltb_spec 11000 q); lia.
Qed.

Lemma threshold_monotone_witness : threshold 1199 <= threshold 11001.
Proof. apply threshold_monotone. lia. Defined.

End ThresholdOrder.

(** *** The bank, whatever it is given *)

Section BankTotals.
Import Actors.
Local Open Scope Z_scope.

(** X2.  Whatever the funds the bank was created with and whatever the
    amounts, negative ones included, the funds are not negative once a
    call of [borrow] has returned: each call leaves
    [max (funds - amount) 0] in the bank.  A bank created in debt is
    brought to zero by its first loan, and a negative amount is paid
    in. *)
Theorem bank_solvent_after_any_call (funds0 : Z) (pre : list Z)
    (amount : Z) :
  0 <= funds (borrow_all (pre ++ [amount]) (init funds0)).2 /\
  funds (borrow_all (pre ++ [amount]) (init funds0)).2
    = Z.max (funds (borrow_all pre (init funds0)).2 - amount) 0.
Proof.
  rewrite borrow_all_app; cbn [snd].
  generalize (borrow_all pre (init funds0)).2; intros b.
  simpl. lia.
Qed.

Lemma requests_nonneg (amounts : list Z) :
  Forall (fun a => 0 <= a) amounts -> 0 <= foldr Z.add 0 amounts.
Proof. induction 1; simpl; lia. Qed.

Lemma borrow_all_total (amounts : list Z) (b : Bank) :
  0 <= funds b ->
  Forall (fun a => 0 <= a) amounts ->
  foldr Z.add 0 (borrow_all amounts b).1
    = Z.min (foldr Z.add 0 amounts) (funds b) /\
  funds (borrow_all amounts b).2 = Z.max (funds b - foldr Z.add 0 amounts) 0.
Proof.
  intros Hb Hall. revert b Hb.
  induction Hall as [| a amounts Ha Hall IH]; intros b Hb; simpl.
  - lia.
  - apply requests_nonneg in Hall.
    specialize (IH {| funds := funds b - Z.min a (funds b) |}).
    destruct (borrow_all amounts _) as [loans b'] eqn:Hrest.
    cbn [fst snd funds] in *. simpl.
    destruct IH as [IHl IHf]; [lia |]. rewrite IHl, IHf. lia.
Qed.

(** X3.  Over any sequence of non-negative requests to a bank with
    non-negative funds, the loans add up to the smaller of the funds and
    the total requested, and the bank keeps what is left of the funds
    after that total: how a sum is split into requests changes neither
    the total lent nor the funds left. *)
Theorem loans_add_up (funds0 : Z) (amounts : list Z) :
  0 <= funds0 ->
  Forall (fun a => 0 <= a) amounts ->
  foldr Z.add 0 (borrow_all amounts (init funds0)).1
    = Z.min (foldr Z.add 0 amounts) funds0 /\
  funds (borrow_all amounts (init funds0)).2
    = Z.max (funds0 - foldr Z.add 0 amounts) 0 /\
  (borrow_all amounts (init funds0)).2
    = (borrow (foldr Z.add 0 amounts) (init funds0)).2.
Proof.
  intros Hfunds Hall.
  destruct (borrow_all_total amounts (init funds0)) as [Hl Hf]; [done.. |].
  cbn [init funds] in *.
  split; [done |]. split; [done |].
  destruct (borrow_all amounts (init funds0)) as [loans [f]].
  cbn [snd funds] in *. unfold borrow, init; cbn [snd funds].
  f_equal. lia.
Qed.

Lemma loans_add_up_witness :
  foldr Z.add 0 (borrow_all [600; 500; 30] (init 1000)).1 = 1000 /\
  funds (borrow_all [600; 500; 30] (init 1000)).2 = 0.
Proof.
  destruct (loans_add_up 1000 [600; 500; 30]) as (Hl & Hf & _).
  - lia.
  - repeat constructor; lia.
  - rewrite Hl, Hf. by vm_compute.
Defined.

End BankTotals.

(** *** The borrower and its banks *)

Section Borrowing.
Import Actors Peers.
Local Open Scope Z_scope.

Lemma total_funds_insert (bs : list Bank) (i : nat) (b b' : Bank) :
  bs !! i = Some b ->
  total_funds (<[i := b']> bs) = total_funds bs - funds b + funds b'.
Proof.
  revert i; induction bs as [| b0 bs IH]; intros i; [done |].
  destruct i as [| i]; simpl.
  - intros [= ->]. lia.
  - intros Hi. rewrite (IH i Hi). lia.
Qed.

Lemma perform_conserves (c : call) (w : world) :
  debt (borrower (perform c w).2) + total_funds (banks (perform c w).2)
    = debt (borrower w) + total_funds (banks w) /\
  debt (borrower (perform c w).2)
    = debt (borrower w) + lent [(perform c w).1].
Proof.
  destruct c as [b | amount]; simpl; [lia |].
  unfold Peers.borrow.
  destruct (bank (borrower w)) as [i |]; simpl; [| lia].
  destruct (banks w !! i) as [b |] eqn:Hb; simpl; [| lia].
  rewrite (total_funds_insert _ _ b) by done. simpl. lia.
Qed.

Lemma lent_cons (r : reply) (rs : list reply) :
  lent (r :: rs) = lent [r] + lent rs.
Proof. destruct r; simpl; lia. Qed.


Lemma perform_solvent (c : call) (w : world) :
  0 <= amount_of c ->
  Forall (fun b => 0 <= funds b) (banks w) ->
  Forall (fun b => 0 <= funds b) (banks (perform c w).2) /\
  0 <= lent [(perform c w).1].
Proof.
  intros Hc Hw. destruct c as [b | amount]; simpl in *; [done |].
  unfold Peers.borrow.
  destruct (bank (borrower w)) as [i |]; simpl; [| done].
  destruct (banks w !! i) as [b |] eqn:Hb; simpl; [| done].
  assert (0 <= funds b) by by eapply (Forall_lookup_1 _ _ _ _ Hw).
  split; [| lia].
  apply Forall_insert; [done |]. simpl. lia.
Qed.

(** X5.  When no bank is overdrawn to begin with and no negative amount
    is asked for, a sequence of calls never lowers the debt, never lends
    more than the banks held together, and leaves no bank overdrawn. *)
Theorem debt_within_funds (cs : list call) (w : world) :
  Forall (fun c => 0 <= amount_of c) cs ->
  Forall (fun b => 0 <= funds b) (banks w) ->
  debt (borrower w) <= debt (borrower (perform_all cs w).2) /\
  debt (borrower (perform_all cs w).2)
    <= debt (borrower w) + total_funds (banks w) /\
  Forall (fun b => 0 <= funds b) (banks (perform_all cs w).2).
Proof.
  intros Hcs. revert w.
  assert (Htotal : forall bs : list Bank,
            Forall (fun b => 0 <= funds b) bs -> 0 <= total_funds bs)
    by (induction 1; simpl; lia).
  induction Hcs as [| c cs Hc _ IH]; intros w Hw; simpl.
  - pose proof (Htotal _ Hw). split; [lia |]. split; [lia | done].
  - destruct (perform_conserves c w) as [Hcons Hd].
    destruct (perform_solvent c w Hc Hw) as [Hw1 Hl].
    destruct (perform c w) as [r w1]; cbn [fst snd] in *.
    specialize (IH w1 Hw1).
    destruct (perform_all cs w1) as [rs w2]; cbn [fst snd] in *.
    pose proof (Htotal _ Hw1). pose proof (Htotal _ Hw).
    destruct IH as (? & ? & ?). split; [lia |]. split; [lia | done].
Qed.

Lemma debt_within_funds_witness :
  let w := {| borrower := init; banks := [Actors.init 1000; Actors.init 100] |} in
  let cs := [AssignBank 0; Borrow 600; Borrow 500; AssignBank 1; Borrow 500] in
  (perform_all cs w).1
    = [Assigned; Loan 600; Loan 400; Assigned; Loan 100] /\
  debt (borrower (perform_all cs w).2) <= 0 + 1100.
Proof.
  intros w cs. split; [reflexivity |].
  destruct (debt_within_funds cs w) as (_ & Hle & _).
  - repeat constructor; simpl; lia.
  - repeat constructor; simpl; lia.
  - exact Hle.
Defined.

(** X6.  A borrower that was never assigned a bank cannot borrow: every
    [borrow] raises [AttributeError], however often it is tried, and
    neither the debt nor any bank changes. *)
Theorem no_bank_no_loan (amounts : list Z) (w : world) :
  bank (borrower w) = None ->
  perform_all (map Borrow amounts) w
    = (map (fun _ => AttributeError) amounts, w).
Proof.
  intros Hnone. induction amounts as [| a amounts IH]; simpl; [done |].
  unfold Peers.borrow. rewrite Hnone. simpl.
  unfold Peers.borrow in IH. by rewrite IH.
Qed.

Lemma no_bank_no_loan_witness :
  perform_all (map Borrow [600; 500])
    {| borrower := init; banks := [Actors.init 1000] |}
  = ([AttributeError; AttributeError],
     {| borrower := init; banks := [Actors.init 1000] |}).
Proof.
  apply (no_bank_no_loan [600; 500]
           {| borrower := init; banks := [Actors.init 1000] |}).
  reflexivity.
Defined.

(** X7.  Requests made through a borrower are the requests made to its
    bank: with bank [i] assigned, a run of [borrow] calls returns the
    loans the bank gives for the same amounts in the same order, leaves
    that bank as those calls leave it, adds the loans to the debt, and
    touches no other bank. *)
Theorem borrower_draws_on_its_bank (amounts : list Z) (w : world)
    (i : nat) (b : Bank) :
  bank (borrower w) = Some i ->
  banks w !! i = Some b ->
  (perform_all (map Borrow amounts) w).1
    = map Loan (borrow_all amounts b).1 /\
  banks (perform_all (map Borrow amounts) w).2
    = <[i := (borrow_all amounts b).2]> (banks w) /\
  borrower (perform_all (map Borrow amounts) w).2
    = {| bank := Some i;
         debt := debt (borrower w) + foldr Z.add 0 (borrow_all amounts b).1 |} /\
  forall j, j <> i ->
    banks (perform_all (map Borrow amounts) w).2 !! j = banks w !! j.
Proof.
  revert w b; induction amounts as [| a amounts IH]; intros w b Hi Hb.
  - simpl. rewrite list_insert_id by done.
    destruct w as [[bk d] bs]; simpl in *. subst bk.
    repeat split; try done. f_equal. lia.
  - cbn [map perform_all perform]. unfold Peers.borrow.
    rewrite Hi, Hb. cbn [Actors.borrow].
    set (b1 := {| funds := funds b - Z.min a (funds b) |}).
    set (w1 := {| borrower := {| bank := Some i;
                                 debt := debt (borrower w) + Z.min a (funds b) |};
                  banks := <[i := b1]> (banks w) |}).
    assert (Hb1 : banks w1 !! i = Some b1).
    { apply list_lookup_insert_eq. by apply lookup_lt_Some in Hb. }
    destruct (IH w1 b1 eq_refl Hb1) as (Hrs & Hbs & Hbo & Hother).
    cbn [borrow_all Actors.borrow]. fold b1.
    destruct (perform_all (map Borrow amounts) w1) as [rs w2].
    destruct (borrow_all amounts b1) as [loans b2].
    cbn [fst snd] in *. subst rs.
    split; [done |]. split; [| split].
    + rewrite Hbs. subst w1. cbn [banks]. by rewrite list_insert_insert_eq.
    + rewrite Hbo. subst w1. cbn [borrower debt]. simpl. f_equal. lia.
    + intros j Hj. rewrite (Hother j Hj). subst w1. cbn [banks].
      by apply list_lookup_insert_ne.
Qed.

Lemma borrower_draws_on_its_bank_witness :
  (perform_all (map Borrow [600; 500])
     {| borrower := {| bank := Some 0%nat; debt := 0 |};
        banks := [Actors.init 1000; Actors.init 100] |}).1
  = map Loan (borrow_all [600; 500] (Actors.init 1000)).1.
Proof.
  destruct (borrower_draws_on_its_bank [600; 500]
              {| borrower := {| bank := Some 0%nat; debt := 0 |};
                 banks := [Actors.init 1000; Actors.init 100] |}
              0 (Actors.init 1000)) as (Hrs & _).
  - reflexivity.
  - reflexivity.
  - exact Hrs.
Defined.

End Borrowing.

(** *** The walker actor *)

Section Walking.
Import WalkerActor.

Variable sq : float -> option float.

Lemma walk_loop_stops (fuel : nat) (draw : nat -> float * float)
    (self0 : Walker) (steps : nat) (w : walked) :
  walk_loop sq fuel draw steps (after steps draw self0) = Some w <->
  exists n,
    steps <= n <= steps + fuel /\
    (forall m, steps <= m < n ->
       inside sq (after m draw self0) = Some true) /\
    stops sq n (after n draw self0) w.
Proof.
  unfold stops.
  revert steps; induction fuel as [| fuel IH]; intros steps; simpl;
    destruct (inside sq (after steps draw self0)) as [[|] |] eqn:Hin.
  - split; [done |]. intros (n & Hn & _ & Hstop).
    assert (n = steps) as -> by lia.
    destruct Hstop as [[? _] | [? _]]; congruence.
  - split.
    + intros [= <-]. exists steps. split; [lia |]. split; [intros; lia |].
      by left.
    + intros (n & Hn & _ & Hstop). assert (n = steps) as -> by lia.
      destruct Hstop as [[_ ->] | [? _]]; [done | congruence].
  - split.
    + intros [= <-]. exists steps. split; [lia |]. split; [intros; lia |].
      by right.
    + intros (n & Hn & _ & Hstop). assert (n = steps) as -> by lia.
      destruct Hstop as [[? _] | [_ ->]]; [congruence | done].
  - change (moved (after steps draw self0) (draw steps))
      with (after (S steps) draw self0).
    rewrite IH. split.
    + intros (n & Hn & Hbefore & Hstop). exists n.
      split; [lia |]. split; [| done].
      intros m Hm. destruct (decide (m = steps)) as [-> | Hne]; [done |].
      apply Hbefore. lia.
    + intros (n & Hn & Hbefore & Hstop). exists n.
      assert (n <> steps).
      { intros ->. destruct Hstop as [[? _] | [? _]]; congruence. }
      split; [lia |]. split; [| done].
      intros m Hm. apply Hbefore. lia.
  - split.
    + intros [= <-]. exists steps. split; [lia |]. split; [intros; lia |].
      by left.
    + intros (n & Hn & Hbefore & Hstop).
      destruct (decide (n = steps)) as [-> | Hne].
      * destruct Hstop as [[_ ->] | [? _]]; [done | congruence].
      * rewrite Hbefore in Hin by lia. done.
  - split.
    + intros [= <-]. exists steps. split; [lia |]. split; [intros; lia |].
      by right.
    + intros (n & Hn & Hbefore & Hstop).
      destruct (decide (n = steps)) as [-> | Hne].
      * destruct Hstop as [[? _] | [_ ->]]; [congruence | done].
      * rewrite Hbefore in Hin by lia. done.
Qed.

(** X8.  Whatever the platform's power function gives, [walk] stops at
    the first turn at which the walker is no longer inside the limit: it
    returns [n], leaving the walker where [n] steps took it, exactly
    when the test holds before each of the first [n] steps and fails
    after them; and it raises [OverflowError] there exactly when the
    test holds before each of the first [n] steps and a square is out
    of range after them.  In both cases the loop has been given at
    least [n] turns to run. *)
Theorem walk_first_exit (fuel : nat) (draw : nat -> float * float)
    (self : Walker) (w : walked) :
  walk sq fuel draw self = Some w <->
  exists n,
    n <= fuel /\
    (forall m, m < n -> inside sq (after m draw self) = Some true) /\
    (inside sq (after n draw self) = Some false /\
       w = Steps n (after n draw self) \/
     inside sq (after n draw self) = None /\
       w = OverflowError (after n draw self)).
Proof.
  unfold walk. change self with (after 0 draw self) at 1.
  rewrite walk_loop_stops. unfold stops. simpl. split.
  - intros (n & Hn & Hbefore & Hstop). exists n.
    split; [lia |]. split; [| done]. intros m Hm. apply Hbefore. lia.
  - intros (n & Hn & Hbefore & Hstop). exists n.
    split; [lia |]. split; [| done]. intros m Hm. apply Hbefore. lia.
Qed.

(** X9.  The position stays in the actor: on a walker whose [walk] has
    returned, every later [walk] returns 0 steps at once, whatever would
    be drawn, and leaves the walker where it is. *)
Theorem walk_again_is_no_walk (fuel : nat) (draw : nat -> float * float)
    (self : Walker) (n : nat) (self' : Walker)
    (fuel' : nat) (draw' : nat -> float * float) :
  walk sq fuel draw self = Some (Steps n self') ->
  walk sq fuel' draw' self' = Some (Steps 0 self').
Proof.
  intros Hwalk.
  apply walk_first_exit in Hwalk as (k & _ & _ & [[Hout Heq] | [_ Heq]]);
    [| done].
  injection Heq as -> ->.
  apply walk_first_exit. exists 0. simpl.
  split; [lia |]. split; [intros; lia |]. by left.
Qed.

End Walking.

Section WalkingScenario.
Import WalkerActor.

Lemma walk_again_is_no_walk_witness :
  walk Walks.product 10 (Walks.steady 0) (init 13)
    = Some (Steps 4 {| id := 13; x := 2%float; y := 0%float |}) /\
  walk Walks.product 0 (Walks.steady 0)
    {| id := 13; x := 2%float; y := 0%float |}
  = Some (Steps 0 {| id := 13; x := 2%float; y := 0%float |}).
Proof.
  assert (Hwalk : walk Walks.product 10 (Walks.steady 0) (init 13)
                  = Some (Steps 4 {| id := 13; x := 2%float; y := 0%float |}))
    by (vm_compute; reflexivity).
  split; [exact Hwalk |].
  exact (walk_again_is_no_walk Walks.product 10 (Walks.steady 0) (init 13)
           4 _ 0 (Walks.steady 0) Hwalk).
Defined.

End WalkingScenario.

(** *** Taking the first results with [ac.next()] *)

Section FirstResults.
Import Walks FirstResults.

Variable step_fn : nat -> nat -> pos -> outcome.

Lemma positions_app (tr1 tr2 : list event) :
  positions (tr1 ++ tr2) = positions tr1 ++ positions tr2.
Proof. unfold positions, stdout. by rewrite !omap_app. Qed.

Lemma pick_is_delete (c : nat) (f0 : future) (fs : list future) :
  f0 :: fs ≡ₚ (pick c f0 fs).1 :: (pick c f0 fs).2 /\
  length (pick c f0 fs).2 = length fs.
Proof.
  destruct (pick_lookup c f0 fs) as (i & Hf & ->).
  split; [by apply delete_Permutation |].
  rewrite length_delete by by eexists. simpl. lia.
Qed.

(** X11.  While at least [n] futures are outstanding and their steps
    return, the cell that calls [ac.next()] [n] times runs through: it
    takes [n] of the outstanding futures out of [ac], each once, leaves
    the others in it, prints the results of the futures taken, in the
    order taken, and submits nothing. *)
Theorem next_results_takes (n : nat) (pool : nat -> nat) (s : state) :
  (forall f, f ∈ ac s ->
     exists r, step_fn (task f) (nstep f) (arg f) = Returned r) ->
  n <= length (ac s) ->
  exists s' taken rs,
    next_results step_fn n pool s = Ran s' /\
    ac s ≡ₚ taken ++ ac s' /\
    length taken = n /\
    Forall2 (fun f r => step_fn (task f) (nstep f) (arg f) = Returned r)
      taken rs /\
    positions (trace s') = positions (trace s) ++ rs /\
    (forall t, submissions t (trace s') = submissions t (trace s)).
Proof.
  revert pool s; induction n as [| n IH]; intros pool s Hret Hlen.
  - exists s, [], []. simpl. rewrite app_nil_r. repeat split; done.
  - cbn [next_results].
    destruct (ac s) as [| f0 fs] eqn:Hac; [simpl in Hlen; lia |].
    destruct (pick_is_delete (pool 0) f0 fs) as [Hperm Hrest].
    destruct (pick (pool 0) f0 fs) as [f rest]; cbn [fst snd] in *.
    destruct (Hret f) as [r Hr]; [rewrite Hperm; by left |].
    rewrite Hr.
    set (s1 := {| ac := rest;
                  trace := trace s ++ [Result (task f) (nstep f) r; Print r] |}).
    destruct (IH (fun i => pool (S i)) s1) as (s' & taken & rs & Hrun & Hp & Hl & Hrs & Hpos & Hsub).
    { intros g Hg. apply Hret. rewrite Hperm. by right. }
    { simpl in *. lia. }
    exists s', (f :: taken), (r :: rs).
    split; [done |]. split; [| split; [| split; [| split]]].
    + rewrite Hperm. simpl. by rewrite <- Hp.
    + simpl. by rewrite Hl.
    + by constructor.
    + rewrite Hpos. subst s1. cbn [trace].
      rewrite positions_app, <- app_assoc. done.
    + intros t. rewrite Hsub. subst s1. cbn [trace].
      unfold submissions. rewrite count_app. unfold count; simpl. lia.
Qed.

(** X12.  Asking for more results than there are futures outstanding
    ends in [StopIteration]: the cell first takes every outstanding
    future out of [ac], each once, and prints their results, in the
    order taken; it submits nothing; and the next [ac.next()] raises. *)
Theorem next_results_stops (n : nat) (pool : nat -> nat) (s : state) :
  (forall f, f ∈ ac s ->
     exists r, step_fn (task f) (nstep f) (arg f) = Returned r) ->
  length (ac s) < n ->
  exists tr taken rs,
    next_results step_fn n pool s = StopIteration tr /\
    ac s ≡ₚ taken /\
    Forall2 (fun f r => step_fn (task f) (nstep f) (arg f) = Returned r)
      taken rs /\
    positions tr = positions (trace s) ++ rs /\
    (forall t, submissions t tr = submissions t (trace s)).
Proof.
  revert pool s; induction n as [| n IH]; intros pool s Hret Hlen; [lia |].
  cbn [next_results]. destruct (ac s) as [| f0 fs] eqn:Hac.
  - exists (trace s), [], []. rewrite app_nil_r.
    repeat split; done.
  - destruct (pick_is_delete (pool 0) f0 fs) as [Hperm Hrest].
    destruct (pick (pool 0) f0 fs) as [f rest]; cbn [fst snd] in *.
    destruct (Hret f) as [r Hr]; [rewrite Hperm; by left |].
    rewrite Hr.
    set (s1 := {| ac := rest;
                  trace := trace s ++ [Result (task f) (nstep f) r; Print r] |}).
    destruct (IH (fun i => pool (S i)) s1)
      as (tr & taken & rs & Hrun & Hp & Hrs & Hpos & Hsub).
    { intros g Hg. apply Hret. rewrite Hperm. by right. }
    { simpl in *. lia. }
    exists tr, (f :: taken), (r :: rs).
    split; [done |]. split; [| split; [| split]].
    + rewrite Hperm. subst s1. cbn [ac] in Hp. by rewrite Hp.
    + by constructor.
    + rewrite Hpos. subst s1. cbn [trace].
      rewrite positions_app, <- app_assoc. done.
    + intros t. rewrite Hsub. subst s1. cbn [trace].
      unfold submissions. rewrite count_app. unfold count; simpl. lia.
Qed.

End FirstResults.

Section FirstResultsScenario.
Import Walks FirstResults.

Lemma next_results_takes_witness :
  exists s',
    next_results (walk_step steady) 3 (fun i => i) (start (origins 3))
      = Ran s' /\
    ac s' = [] /\
    positions (trace s')
      = [Pos 0 0.5%float 0%float; Pos 2 0.5%float 0%float;
         Pos 1 0.5%float 0%float].
Proof.
  destruct (next_results_takes (walk_step steady) 3 (fun i => i) (start (origins 3)))
    as (s' & taken & rs & Hrun & _).
  - intros f _. eexists. reflexivity.
  - simpl. lia.
  - exists s'. split; [exact Hrun |].
    vm_compute in Hrun. injection Hrun as <-. by vm_compute.
Defined.

Lemma next_results_stops_witness :
  exists tr,
    next_results (walk_step steady) 4 (fun i => i) (start (origins 3))
      = StopIteration tr /\
    positions tr
      = [Pos 0 0.5%float 0%float; Pos 2 0.5%float 0%float;
         Pos 1 0.5%float 0%float].
Proof.
  destruct (next_results_stops (walk_step steady) 4 (fun i => i)
              (start (origins 3)))
    as (tr & taken & rs & Hrun & _).
  - intros f _. eexists. reflexivity.
  - simpl. lia.
  - exists tr. split; [exact Hrun |].
    vm_compute in Hrun. injection Hrun as <-. vm_compute. reflexivity.
Defined.

End FirstResultsScenario.

(** *** More on the loop over [as_completed] *)

Section LoopOrder.
Import Walks.

Variable step_fn : nat -> nat -> pos -> outcome.
Variable should_continue : pos -> bool.

Local Abbreviation run := (Walks.run step_fn should_continue).
Local Abbreviation reachable := (Walks.reachable step_fn should_continue).
Local Abbreviation ends_at := (Walks.ends_at step_fn should_continue).
Local Abbreviation iteration := (Walks.iteration step_fn should_continue).

Lemma finished_dones (seeds : list pos) (sched : list nat)
    (tr : list event) :
  run sched (start seeds) = Finished tr ->
  map fst (dones tr) ≡ₚ seq 0 (length seeds) /\
  forall t r, (t, r) ∈ dones tr ->
    exists s0 k,
      seeds !! t = Some s0 /\ ends_at t 0 s0 k r /\
      submissions t tr = S k /\ observed t tr = S k.
Proof.
  intros Hrun.
  destruct (run_Finished _ _ _ _ _ Hrun) as (s & Hs & Hempty & <-).
  split; [by eapply final_dones |].
  intros t r Hin. apply dones_lookup in Hin as [j Hj].
  destruct (done_after _ _ seeds s Hs j t r Hj)
    as (s0 & k & Hs0 & Hend & _ & Hobs & Hsub).
  by exists s0, k.
Qed.

(** X14.  What a run that ends has cost: a task whose chain passes the
    test [k] times and then fails it was submitted exactly [k+1] times,
    gave exactly [k+1] results and is done at the last of them, in every
    run that ends, whatever the order of completion. *)
Theorem finished_run_cost (seeds : list pos) (sched : list nat)
    (tr : list event) (t : nat) (s0 : pos) (k : nat) (r : pos) :
  run sched (start seeds) = Finished tr ->
  seeds !! t = Some s0 ->
  ends_at t 0 s0 k r ->
  (t, r) ∈ dones tr /\ submissions t tr = S k /\ observed t tr = S k.
Proof.
  intros Hrun Hs0 Hend.
  destruct (finished_dones seeds sched tr Hrun) as [Hp Hd].
  assert (Ht : t ∈ map fst (dones tr)).
  { rewrite Hp. apply elem_of_seq. apply lookup_lt_Some in Hs0. lia. }
  apply list_elem_of_fmap_1 in Ht as ([t' r'] & -> & Hin).
  cbn [fst] in *.
  destruct (Hd t' r' Hin) as (s0' & k' & Hs0' & Hend' & Hsub & Hobs).
  assert (s0' = s0) as -> by congruence.
  by destruct (ends_at_unique _ _ _ _ _ _ _ _ _ Hend Hend') as [-> ->].
Qed.

Lemma stdout_app (tr1 tr2 : list event) :
  stdout (tr1 ++ tr2) = stdout tr1 ++ stdout tr2.
Proof. apply omap_app. Qed.

Lemma never_leaving (sched : list nat) (s : state) :
  (forall t n a,
     exists r, step_fn t n a = Returned r /\ should_continue r = true) ->
  ac s <> [] ->
  exists s',
    run sched s = Waiting s' /\
    length (ac s') = length (ac s) /\
    dones (trace s') = dones (trace s) /\
    length (stdout (trace s')) = length (stdout (trace s)) + length sched.
Proof.
  intros Hgo. revert s; induction sched as [| c sched IH]; intros s Hne.
  - exists s. simpl. destruct (ac s); [done |]. repeat split; lia.
  - simpl. destruct (iteration c s) as [s1 | | e] eqn:Hturn.
    + apply iteration_Continue in Hturn as (f & r & Hstep & Hof).
      destruct (Hgo (task f) (nstep f) (arg f)) as (r' & Hstep' & Hr').
      assert (r' = r) as -> by congruence.
      destruct Hof as [i Hi _ | i Hi Hstop]; [| congruence].
      destruct (IH {| ac := delete i (ac s) ++ [Future (task f) (S (nstep f)) r];
                      trace := trace s ++ resubmit f r |})
        as (s' & Hrun & Hlen & Hdone & Hout).
      { cbn [ac]. by destruct (delete i (ac s)). }
      exists s'. split; [done |]. cbn [ac trace] in *.
      rewrite Hlen, Hdone, Hout.
      rewrite length_app, length_delete by by eexists.
      rewrite dones_app, stdout_app, length_app.
      apply lookup_lt_Some in Hi. simpl. rewrite app_nil_r.
      repeat split; lia.
    + by apply iteration_Exhausted in Hturn.
    + apply iteration_Failure in Hturn as (f & _ & Hraise).
      destruct (Hgo (task f) (nstep f) (arg f)) as (r' & Hstep' & _).
      congruence.
Qed.

(** X15.  The loop has no bound of its own.  When the test holds of
    every result a step can return, and steps never raise, a run over one
    seed or more never ends, whatever the order of completion and however
    long it is left to run: every walk stays outstanding, none is ever
    done, and each future that completes adds one printed position. *)
Theorem walks_that_never_leave (seeds : list pos) (sched : list nat) :
  seeds <> [] ->
  (forall t n a,
     exists r, step_fn t n a = Returned r /\ should_continue r = true) ->
  exists s,
    run sched (start seeds) = Waiting s /\
    length (ac s) = length seeds /\
    dones (trace s) = [] /\
    length (stdout (trace s)) = length sched.
Proof.
  intros Hne Hgo.
  destruct (never_leaving sched (start seeds) Hgo)
    as (s & Hrun & Hlen & Hdone & Hout).
  { simpl. by destruct seeds. }
  exists s. split; [done |].
  assert (Hstart : length (submit_all 0 seeds) = length seeds).
  { rewrite <- (length_map task), task_submit_all. apply length_seq. }
  cbn [start ac trace] in *.
  rewrite dones_submitted in Hdone.
  assert (Hnone : stdout (map submitted (submit_all 0 seeds)) = [])
    by (generalize (submit_all 0 seeds); induction l; done).
  rewrite Hnone in Hout. simpl in Hout.
  repeat split; try done; lia.
Qed.

(** X16.  How the output reads.  In every state of a run, a walk is
    reported done right after its last position was printed: the two
    events before a [Done] are the result taken from the future and the
    [print] of that very position, and that position fails the test. *)
Theorem done_follows_its_position (seeds : list pos) (s : state)
    (j t : nat) (r : pos) :
  reachable seeds s ->
  trace s !! j = Some (Done t r) ->
  should_continue r = false /\
  exists n i,
    j = S (S i) /\
    trace s !! i = Some (Result t n r) /\
    trace s !! S i = Some (Print r).
Proof.
  intros Hs. revert s Hs j t r.
  apply (reachable_ind' step_fn should_continue seeds
           (fun s => forall j t r,
              trace s !! j = Some (Done t r) ->
              should_continue r = false /\
              exists n i,
                j = S (S i) /\
                trace s !! i = Some (Result t n r) /\
                trace s !! S i = Some (Print r))).
  - intros j t r Hj. by apply lookup_start in Hj as (s0 & _ & ?).
  - intros s f r s' _ IH _ Hturn j t r' Hj.
    assert (Hrest : exists ext,
               trace s' = trace s ++ ext /\
               (ext = resubmit f r \/
                ext = retire f r /\ should_continue r = false))
      by (destruct Hturn; eexists; eauto).
    destruct Hrest as (ext & Htr & Hext). rewrite Htr in *. clear Htr.
    apply lookup_app_Some in Hj as [Hj | [Hge Hj]].
    + destruct (IH j t r' Hj) as (Hstop & n & i & -> & Hi & HSi).
      split; [done |]. exists n, i. split; [done |].
      split; by apply lookup_app_l_Some.
    + destruct Hext as [-> | [-> Hstop]];
        destruct (j - length (trace s)) as [| [| [| k]]] eqn:Hk; try done.
      injection Hj as <- <-. split; [done |].
      exists (nstep f), (length (trace s)). split; [lia |].
      rewrite !lookup_app_r by lia.
      rewrite Nat.sub_diag.
      replace (S (length (trace s)) - length (trace s)) with 1 by lia.
      done.
Qed.

End LoopOrder.

Section LoopTwice.
Import Walks.

Variable step1 step2 : nat -> nat -> pos -> outcome.
Variable should_continue : pos -> bool.

Hypothesis same_returns : forall t n a, step1 t n a = step2 t n a.

Lemma result_at_same (t n : nat) (a : pos) (j : nat) :
  result_at step1 should_continue t n a j
  = result_at step2 should_continue t n a j.
Proof.
  revert n a; induction j as [| j IH]; intros n a; simpl;
    rewrite same_returns; [done |].
  destruct (step2 t n a) as [r | e]; [| done].
  destruct (should_continue r); [apply IH | done].
Qed.

(** X13.  The order in which the futures complete changes what the loop
    arrives at only through what the steps return.  Take two runs from
    the same seeds in which every step invocation returns the same:
    what the [n]-th step of a task returns on an argument does not
    depend on when it runs.  If both runs end, they retire the same
    tasks at the same positions, and print the same "Walk ... is done"
    ids, up to the order of the lines. *)
Theorem completion_order_is_irrelevant (seeds : list pos)
    (sched1 sched2 : list nat) (tr1 tr2 : list event) :
  run step1 should_continue sched1 (start seeds) = Finished tr1 ->
  run step2 should_continue sched2 (start seeds) = Finished tr2 ->
  dones tr1 ≡ₚ dones tr2 /\
  done_ids (stdout tr1) ≡ₚ done_ids (stdout tr2).
Proof.
  intros Hrun1 Hrun2.
  destruct (finished_dones _ _ seeds sched1 tr1 Hrun1) as [Hp1 Hd1].
  destruct (finished_dones _ _ seeds sched2 tr2 Hrun2) as [Hp2 Hd2].
  assert (Hends : forall t s0 k r,
            ends_at step1 should_continue t 0 s0 k r <->
            ends_at step2 should_continue t 0 s0 k r)
    by (intros; unfold ends_at; by rewrite result_at_same).
  assert (H12 : forall w, w ∈ dones tr1 -> w ∈ dones tr2).
  { intros [t r] Hin.
    destruct (Hd1 t r Hin) as (s0 & k & Hs0 & Hend & _).
    assert (Ht : t ∈ map fst (dones tr2)).
    { rewrite Hp2, <- Hp1. by apply (list_elem_of_fmap_2' fst _ (t, r)). }
    apply list_elem_of_fmap_1 in Ht as ([t' r'] & -> & Hin').
    cbn [fst] in *.
    destruct (Hd2 t' r' Hin') as (s0' & k' & Hs0' & Hend' & _).
    assert (s0' = s0) as -> by congruence.
    apply Hends in Hend.
    by destruct (ends_at_unique _ _ _ _ _ _ _ _ _ Hend Hend') as [_ ->]. }
  assert (H21 : forall w, w ∈ dones tr2 -> w ∈ dones tr1).
  { intros [t r] Hin.
    destruct (Hd2 t r Hin) as (s0 & k & Hs0 & Hend & _).
    assert (Ht : t ∈ map fst (dones tr1)).
    { rewrite Hp1, <- Hp2. by apply (list_elem_of_fmap_2' fst _ (t, r)). }
    apply list_elem_of_fmap_1 in Ht as ([t' r'] & -> & Hin').
    cbn [fst] in *.
    destruct (Hd1 t' r' Hin') as (s0' & k' & Hs0' & Hend' & _).
    assert (s0' = s0) as -> by congruence.
    apply Hends in Hend'.
    by destruct (ends_at_unique _ _ _ _ _ _ _ _ _ Hend Hend') as [_ ->]. }
  assert (Hperm : dones tr1 ≡ₚ dones tr2).
  { apply NoDup_Permutation.
    - apply (NoDup_fmap_1 fst). rewrite Hp1. apply NoDup_seq.
    - apply (NoDup_fmap_1 fst). rewrite Hp2. apply NoDup_seq.
    - intros w. split; [apply H12 | apply H21]. }
  split; [done |]. rewrite !done_ids_stdout. by rewrite Hperm.
Qed.

End LoopTwice.

Section LoopOrderScenario.
Import Walks.
Local Open Scope string_scope.

Lemma completion_order_is_irrelevant_witness :
  exists tr1 tr2,
    run (walk_step steady) within [0; 0; 0; 0; 0; 0; 0; 0]
      (start (origins 2)) = Finished tr1 /\
    run (walk_step steady) within [1; 5; 2; 0; 3; 1; 0; 0]
      (start (origins 2)) = Finished tr2 /\
    stdout tr1 <> stdout tr2 /\
    dones tr1 ≡ₚ dones tr2.
Proof.
  eexists _, _.
  assert (H1 : run (walk_step steady) within [0; 0; 0; 0; 0; 0; 0; 0]
                 (start (origins 2)) = Finished _)
    by (vm_compute; reflexivity).
  assert (H2 : run (walk_step steady) within [1; 5; 2; 0; 3; 1; 0; 0]
                 (start (origins 2)) = Finished _)
    by (vm_compute; reflexivity).
  split; [exact H1 |]. split; [exact H2 |]. split; [by vm_compute |].
  destruct (completion_order_is_irrelevant (walk_step steady)
              (walk_step steady) within (fun _ _ _ => eq_refl)
              _ _ _ _ _ H1 H2) as [Hperm _].
  exact Hperm.
Defined.

Lemma finished_run_cost_witness :
  exists tr,
    run (walk_step steady) within [1; 5; 2; 0; 3; 1; 0; 0]
      (start (origins 2)) = Finished tr /\
    submissions 1 tr = 4.
Proof.
  eexists.
  assert (H : run (walk_step steady) within [1; 5; 2; 0; 3; 1; 0; 0]
                (start (origins 2)) = Finished _)
    by (vm_compute; reflexivity).
  split; [exact H |].
  destruct (finished_run_cost (walk_step steady) within (origins 2) _ _
              1 (Pos 1 0%float 0%float) 3 (Pos 1 2%float 0%float) H)
    as (_ & Hsub & _).
  - reflexivity.
  - split; vm_compute; reflexivity.
  - exact Hsub.
Defined.

Lemma walks_that_never_leave_witness :
  exists s,
    run (walk_step steady) (fun _ => true) [0; 1; 2; 3; 4]
      (start (origins 3)) = Waiting s /\
    length (ac s) = 3.
Proof.
  destruct (walks_that_never_leave (walk_step steady) (fun _ => true)
              (origins 3) [0; 1; 2; 3; 4]) as (s & Hrun & Hlen & _).
  - discriminate.
  - intros t n a. eexists. split; reflexivity.
  - by exists s.
Defined.

Lemma done_follows_its_position_witness :
  exists s,
    reachable (walk_step steady) never (origins 1) s /\
    trace s !! 3 = Some (Done 0 (Pos 0 0.5%float 0%float)) /\
    trace s !! 2 = Some (Print (Pos 0 0.5%float 0%float)).
Proof.
  eexists.
  assert (Hs : reachable (walk_step steady) never (origins 1) _)
    by (apply rtc_once; exists 0; reflexivity).
  split; [exact Hs |]. split; [reflexivity |].
  destruct (done_follows_its_position (walk_step steady) never (origins 1)
              _ 3 0 (Pos 0 0.5%float 0%float) Hs)
    as (_ & n & i & Hj & _ & Hprint).
  - reflexivity.
  - injection Hj as <-. exact Hprint.
Defined.

End LoopOrderScenario.

(** *** The estimate of pi *)

Section Estimate.
Import MonteCarlo.

Lemma sum_Permutation (results results' : list Z) :
  results ≡ₚ results' -> sum results = sum results'.
Proof. induction 1; simpl in *; lia. Qed.

(** X17.  The estimate depends on the draws only through how many of
    them fell inside the circle: the sum of the samples is that number,
    so the estimate over [n] draws is four times that number over [n],
    and gathering the same samples in another order gives the same
    estimate. *)
Theorem estimate_counts_hits (draws draws' : list (float * float)) :
  draws ≡ₚ draws' ->
  sum (samples draws)
    = Z.of_nat (length (List.filter
                          (fun d => (d.1 * d.1 + d.2 * d.2 <? 1)%float)
                          draws)) /\
  pi_hat (samples draws) = pi_hat (samples draws').
Proof.
  intros Hperm. split.
  - clear Hperm. unfold sum, samples.
    induction draws as [| d draws IH]; [done |].
    cbn [map List.filter foldr]. unfold sample at 1.
    destruct (_ <? _)%float; cbn [length]; lia.
  - assert (Hres : samples draws ≡ₚ samples draws')
      by (unfold samples; by apply Permutation_map).
    pose proof (sum_Permutation _ _ Hres) as Hsum.
    pose proof (Permutation_length Hres) as Hlen.
    unfold pi_hat.
    destruct (samples draws), (samples draws'); try done.
    by rewrite Hsum, Hlen.
Qed.

Lemma estimate_counts_hits_witness :
  pi_hat (samples [(0.5, 0.5); (0.75, 0.75); (0.25, 0.125)]%float)
  = pi_hat (samples [(0.75, 0.75); (0.25, 0.125); (0.5, 0.5)]%float).
Proof.
  apply (estimate_counts_hits
           [(0.5, 0.5); (0.75, 0.75); (0.25, 0.125)]%float
           [(0.75, 0.75); (0.25, 0.125); (0.5, 0.5)]%float).
  exact (Permutation_cons_append [(0.75, 0.75); (0.25, 0.125)]%float
           (0.5, 0.5)%float).
Defined.

End Estimate.
